(** * A chained hash table with string keys (hashtable_chaining.c)

    Shallow embedding of [src/hashtable_chaining.c] and verification of
    the properties its specification states.

    The C program works on heap-allocated nodes through raw pointers, so
    the embedding keeps an explicit memory: a finite map from addresses
    to typed blocks, in which [calloc] creates a block at a fresh
    address and [free] removes it.  Reading or writing an address that
    holds no block of the expected type, calling through a null function
    pointer and indexing an array out of range are undefined behaviour
    of the C program; the embedding reports them as [Undef].  The
    functions run in a small state monad over that memory. *)

From stdpp Require Import gmap strings list fin_maps.
From Stdlib Require Import ZArith Lia Ascii.

Open Scope Z_scope.

(** ** Machine integers *)

Definition two64 : Z := 2 ^ 64.
Definition two63 : Z := 2 ^ 63.

(** Conversion to [uint64_t] / [unsigned long long]. *)
Definition to_uint64 (z : Z) : Z := z mod two64.

(** Conversion of an unsigned 64-bit value to [long long] (two's
    complement, as every supported compiler does). *)
Definition to_int64 (z : Z) : Z :=
  let u := z mod two64 in if u <? two63 then u else u - two64.

(** ** C strings

    A [const char *] argument is [None] for a null pointer and [Some s]
    for a pointer to the bytes [s] followed by the terminating NUL.  A
    NUL inside [s] ends the C string early, as it would in memory. *)

Definition NUL : ascii := Ascii.zero.

Definition uchar (c : ascii) : Z := Z.of_nat (nat_of_ascii c).

(** Value of a plain [char] in an expression: [char] is signed on the
    x86-64 System V ABI the program is built for. *)
Definition char_val (c : ascii) : Z :=
  if uchar c <? 128 then uchar c else uchar c - 256.

(** The bytes of [s] before its first NUL: what [strcpy] copies. *)
Fixpoint cstr (s : string) : string :=
  match s with
  | EmptyString => EmptyString
  | String c r => if Ascii.eqb c NUL then EmptyString else String c (cstr r)
  end.

Definition strlen (s : string) : nat := String.length (cstr s).

(** [strcmp]: difference of the first pair of bytes (as [unsigned char])
    that differ, the end of either string counting as NUL. *)
Fixpoint strcmp (a b : string) : Z :=
  match a, b with
  | EmptyString, EmptyString => 0
  | EmptyString, String y _ => 0 - uchar y
  | String x _, EmptyString => uchar x
  | String x a', String y b' =>
      if Ascii.eqb x y
      then (if Ascii.eqb x NUL then 0 else strcmp a' b')
      else uchar x - uchar y
  end.

(** ** Memory *)

(** Addresses are integers; the null pointer is 0. *)
Abbreviation ptr := Z (only parsing).
Definition NULL : ptr := 0.

(** [struct entry]. *)
Record entry_t : Type := mk_entry {
  p_next : ptr;
  p_key  : ptr;
  p_data : ptr
}.

(** [struct hashtable]; the mutex has no effect in a sequential run and
    is left out. *)
Record hashtable_t : Type := mk_hashtable {
  pp_entries : ptr;
  size       : Z;
  capacity   : Z
}.

(** A live allocation: a node, a table, the array of bucket heads or
    the bytes of a key.  The source asks for [sizeof(entry_t)] bytes per
    bucket and uses each as one pointer; [Slots] holds these pointers. *)
Inductive block : Type :=
| Entry (e : entry_t)
| Table (t : hashtable_t)
| Slots (a : list ptr)
| Chars (s : string).

(** What the program prints (the text without its final newline) and
    which callbacks were invoked, in order. *)
Inductive event : Type :=
| Fprintf_stderr (msg : string)
| Perror (msg : string)
| Call_del (v : ptr)
| Call_comp (v : ptr).

(** The state of a run.  [brk] is the next fresh address, [oracle] says
    for each coming allocation whether the allocator can satisfy it
    (once the list is used up every allocation succeeds), [trace] is
    the list of events so far, oldest first. *)
Record world : Type := mk_world {
  heap   : gmap Z block;
  brk    : Z;
  oracle : list bool;
  trace  : list event
}.

Definition w_empty : world := mk_world ∅ 1 [] [].

Definition set_heap (h : gmap Z block) (w : world) : world :=
  mk_world h (brk w) (oracle w) (trace w).

Inductive fault : Type :=
| Invalid_read (p : ptr)
| Invalid_write (p : ptr)
| Invalid_free (p : ptr)
| Out_of_bounds (i : Z)
| Null_call.

Inductive outcome (A : Type) : Type :=
| Ret (a : A) (w : world)
| Undef (f : fault)
| Diverge.
Arguments Ret {A} a w.
Arguments Undef {A} f.
Arguments Diverge {A}.

Definition M (A : Type) : Type := world -> outcome A.

Definition ret {A} (a : A) : M A := fun w => Ret a w.

Definition bind {A B} (m : M A) (k : A -> M B) : M B :=
  fun w => match m w with
           | Ret a w' => k a w'
           | Undef f => Undef f
           | Diverge => Diverge
           end.

Notation "x <- m ;; k" := (bind m (fun x => k))
  (at level 100, m at next level, right associativity).
Notation "m ;;; k" := (bind m (fun _ => k))
  (at level 100, right associativity).

Definition undef {A} (f : fault) : M A := fun _ => Undef f.
Definition diverge {A} : M A := fun _ => Diverge.

Definition emit (e : event) : M unit :=
  fun w => Ret tt (mk_world (heap w) (brk w) (oracle w) (trace w ++ [e])).

Definition fprintf_stderr (msg : string) : M unit := emit (Fprintf_stderr msg).
Definition perror (msg : string) : M unit := emit (Perror msg).

(** [calloc(n, sz)]: fails when [n * sz] does not fit [size_t] or when
    the oracle says so; otherwise the zeroed block [init] appears at a
    fresh address. *)
Definition calloc (n sz : Z) (init : block) : M ptr :=
  fun w =>
    let ok := match oracle w with [] => true | b :: _ => b end in
    let rest := tl (oracle w) in
    if two64 <=? n * sz then Ret NULL w
    else if ok
    then Ret (brk w) (mk_world (<[brk w := init]> (heap w)) (brk w + 1) rest (trace w))
    else Ret NULL (mk_world (heap w) (brk w) rest (trace w)).

(** [free(p)]: nothing for a null pointer, undefined for an address that
    holds no live block. *)
Definition free (p : ptr) : M unit :=
  fun w =>
    if p =? NULL then Ret tt w
    else match heap w !! p with
         | Some _ => Ret tt (set_heap (delete p (heap w)) w)
         | None => Undef (Invalid_free p)
         end.

Definition load_entry (p : ptr) : M entry_t :=
  fun w => match heap w !! p with
           | Some (Entry e) => Ret e w
           | _ => Undef (Invalid_read p)
           end.

Definition load_table (p : ptr) : M hashtable_t :=
  fun w => match heap w !! p with
           | Some (Table t) => Ret t w
           | _ => Undef (Invalid_read p)
           end.

Definition load_chars (p : ptr) : M string :=
  fun w => match heap w !! p with
           | Some (Chars s) => Ret s w
           | _ => Undef (Invalid_read p)
           end.

(** [a[i]] for the bucket array at address [a]. *)
Definition load_slot (a : ptr) (i : Z) : M ptr :=
  fun w => match heap w !! a with
           | Some (Slots l) =>
               if (0 <=? i) && (i <? Z.of_nat (length l))
               then match l !! Z.to_nat i with
                    | Some p => Ret p w
                    | None => Undef (Out_of_bounds i)
                    end
               else Undef (Out_of_bounds i)
           | _ => Undef (Invalid_read a)
           end.

Definition store_slot (a : ptr) (i : Z) (v : ptr) : M unit :=
  fun w => match heap w !! a with
           | Some (Slots l) =>
               if (0 <=? i) && (i <? Z.of_nat (length l))
               then Ret tt (set_heap (<[a := Slots (<[Z.to_nat i := v]> l)]> (heap w)) w)
               else Undef (Out_of_bounds i)
           | _ => Undef (Invalid_write a)
           end.

Definition update_entry (p : ptr) (f : entry_t -> entry_t) : M unit :=
  fun w => match heap w !! p with
           | Some (Entry e) => Ret tt (set_heap (<[p := Entry (f e)]> (heap w)) w)
           | _ => Undef (Invalid_write p)
           end.

Definition update_table (p : ptr) (f : hashtable_t -> hashtable_t) : M unit :=
  fun w => match heap w !! p with
           | Some (Table t) => Ret tt (set_heap (<[p := Table (f t)]> (heap w)) w)
           | _ => Undef (Invalid_write p)
           end.

Definition store_chars (p : ptr) (s : string) : M unit :=
  fun w => match heap w !! p with
           | Some (Chars _) => Ret tt (set_heap (<[p := Chars s]> (heap w)) w)
           | _ => Undef (Invalid_write p)
           end.

(** ** hash_key *)

Definition choice : Z := 97.
Definition large : Z := 1000000009.

(** The body of the [for] loop of [hash_key] over the bytes still to be
    read; [%] on [long long] truncates towards zero ([Z.rem]). *)
Fixpoint hash_loop (s : string) (hash power : Z) : Z :=
  match s with
  | EmptyString => hash
  | String c r =>
      let hash' := Z.rem (hash + (char_val c - char_val "a"%char + 1) * power) large in
      let power' := Z.rem (power * choice) large in
      hash_loop r hash' power'
  end.

(** [hash_key(p_key, ht_capacity)].  The last reduction [hash %=
    ht_capacity] mixes [long long] with [uint64_t]: both operands are
    taken as unsigned 64-bit values and the result is stored back into
    the [long long]. *)
Definition hash_key (p_key : option string) (ht_capacity : Z) : M Z :=
  match p_key with
  | None =>
      fprintf_stderr "Invalid argument passed to hash_key." ;;; ret (-1)
  | Some key =>
      if ht_capacity =? 0
      then fprintf_stderr "Invalid argument passed to hash_key." ;;; ret (-1)
      else
        let hash := hash_loop (cstr key) (-1) 1 in
        ret (to_int64 (to_uint64 hash mod ht_capacity))
  end.

(** ** Field updates and sizes *)

Definition set_p_next (v : ptr) (e : entry_t) : entry_t :=
  mk_entry v (p_key e) (p_data e).
Definition set_p_key (v : ptr) (e : entry_t) : entry_t :=
  mk_entry (p_next e) v (p_data e).
Definition set_p_data (v : ptr) (e : entry_t) : entry_t :=
  mk_entry (p_next e) (p_key e) v.

Definition set_pp_entries (v : ptr) (t : hashtable_t) : hashtable_t :=
  mk_hashtable v (size t) (capacity t).
Definition set_size (v : Z) (t : hashtable_t) : hashtable_t :=
  mk_hashtable (pp_entries t) v (capacity t).
Definition set_capacity (v : Z) (t : hashtable_t) : hashtable_t :=
  mk_hashtable (pp_entries t) (size t) v.

(** [sizeof] on x86-64 Linux; only [calloc]'s overflow test reads them. *)
Definition sizeof_hashtable_t : Z := 64.
Definition sizeof_entry_t : Z := 24.

(** A chain in a memory of [n] blocks that is walked for more than [n]
    steps has come back to a node it already visited, and the C loop,
    which changes nothing while it walks, never leaves it: the loops
    get one step more than there are blocks and report [Diverge] when
    the steps run out (see [find_loop_diverge_cycle]). *)
Definition with_fuel {A} (f : nat -> M A) : M A :=
  fun w => f (S (base.size (heap w))) w.

(** Function pointers: [None] is a null pointer, [Some f] points to the
    caller's code [f], which may itself use the memory. *)
Definition p_comp : Type := option (ptr -> M ptr).
Definition p_del : Type := option (ptr -> M unit).

Definition is_null_fn {A} (f : option A) : bool :=
  match f with
  | None => true
  | Some _ => false
  end.

Definition call {A} (f : option (ptr -> M A)) (v : ptr) : M A :=
  match f with
  | Some g => g v
  | None => undef Null_call
  end.

(** ** ht_create *)

Definition ht_create (capacity : Z) : M ptr :=
  if capacity =? 0 then
    fprintf_stderr "Hashtable cannot have 0 capacity." ;;; ret NULL
  else
    p_new_hashtable <- calloc 1 sizeof_hashtable_t (Table (mk_hashtable NULL 0 0)) ;;
    if p_new_hashtable =? NULL then
      perror "calloc for hashtable in ht_create" ;;; ret NULL
    else
      a <- calloc capacity sizeof_entry_t (Slots (replicate (Z.to_nat capacity) NULL)) ;;
      update_table p_new_hashtable (set_pp_entries a) ;;;
      (* the source tests p_new_hashtable here, not the array just allocated *)
      if p_new_hashtable =? NULL then
        perror "calloc for entries in ht_create" ;;;
        free p_new_hashtable ;;;
        ret NULL
      else
        update_table p_new_hashtable (set_size 0) ;;;
        update_table p_new_hashtable (set_capacity capacity) ;;;
        ret p_new_hashtable.

(** ** ht_find_key *)

(** The [while] loop of [ht_find_key]; returns the final [p_temp_entry]. *)
Fixpoint find_loop (fuel : nat) (p_temp_entry : ptr) (key : string) : M ptr :=
  match fuel with
  | O => diverge
  | S n =>
      if p_temp_entry =? NULL then ret p_temp_entry
      else
        e <- load_entry p_temp_entry ;;
        k <- load_chars (p_key e) ;;
        if strcmp k key =? 0 then ret p_temp_entry
        else find_loop n (p_next e) key
  end.

Definition ht_find_key (p_hashtable : ptr) (p_key : option string) : M ptr :=
  match p_key with
  | None => fprintf_stderr "Invalid argument passed to ht_find." ;;; ret NULL
  | Some key =>
      if p_hashtable =? NULL then
        fprintf_stderr "Invalid argument passed to ht_find." ;;; ret NULL
      else
        t <- load_table p_hashtable ;;
        ht_index <- hash_key p_key (capacity t) ;;
        if ht_index =? -1 then ret NULL
        else
          t <- load_table p_hashtable ;;
          p_temp_entry <- load_slot (pp_entries t) ht_index ;;
          p_temp_entry <- with_fuel (fun n => find_loop n p_temp_entry key) ;;
          if p_temp_entry =? NULL then ret NULL
          else
            e <- load_entry p_temp_entry ;;
            ret (p_data e)
  end.

(** ** ht_insert *)

Definition ht_insert (p_hashtable : ptr) (p_key : option string) (p_data : ptr)
  : M bool :=
  match p_key with
  | None => fprintf_stderr "Invalid argument passed to ht_insert." ;;; ret false
  | Some key =>
      if (p_hashtable =? NULL) || (p_data =? NULL) then
        fprintf_stderr "Invalid argument passed to ht_insert." ;;; ret false
      else
        t <- load_table p_hashtable ;;
        ht_index <- hash_key p_key (capacity t) ;;
        if ht_index =? -1 then ret false
        else
          found <- ht_find_key p_hashtable p_key ;;
          if negb (found =? NULL) then
            fprintf_stderr "Entry exists." ;;; ret false
          else
            p_new_entry <- calloc 1 sizeof_entry_t (Entry (mk_entry NULL NULL NULL)) ;;
            if p_new_entry =? NULL then
              perror "calloc for new entry in insert" ;;; ret false
            else
              k <- calloc (Z.of_nat (strlen key) + 1) 1 (Chars EmptyString) ;;
              update_entry p_new_entry (set_p_key k) ;;;
              if k =? NULL then
                perror "calloc for entry key in insert" ;;;
                free p_new_entry ;;;
                ret false
              else
                store_chars k (cstr key) ;;;
                update_entry p_new_entry (set_p_data p_data) ;;;
                t <- load_table p_hashtable ;;
                head <- load_slot (pp_entries t) ht_index ;;
                update_entry p_new_entry (set_p_next head) ;;;
                t <- load_table p_hashtable ;;
                store_slot (pp_entries t) ht_index p_new_entry ;;;
                update_table p_hashtable (fun t => set_size (to_uint64 (size t + 1)) t) ;;;
                ret true
  end.

(** ** ht_compare *)

(** The inner [while] loop; returns [p_match], which is not [NULL] only
    when the loop was left through the [goto]. *)
Fixpoint compare_while (fuel : nat) (p_user_func : p_comp) (p_temp_entry : ptr)
  : M ptr :=
  match fuel with
  | O => diverge
  | S n =>
      if p_temp_entry =? NULL then ret NULL
      else
        e <- load_entry p_temp_entry ;;
        p_match <- call p_user_func (p_data e) ;;
        if negb (p_match =? NULL) then ret p_match
        else
          e <- load_entry p_temp_entry ;;
          compare_while n p_user_func (p_next e)
  end.

(** The [for] loop over the bucket indexes from [idx] on. *)
Fixpoint compare_for (fuel : nat) (p_hashtable : ptr) (p_user_func : p_comp)
  (idx : Z) : M ptr :=
  match fuel with
  | O => diverge
  | S n =>
      t <- load_table p_hashtable ;;
      if idx <? capacity t then
        head <- load_slot (pp_entries t) idx ;;
        p_match <- (if negb (head =? NULL)
                    then with_fuel (fun m => compare_while m p_user_func head)
                    else ret NULL) ;;
        if negb (p_match =? NULL) then ret p_match
        else compare_for n p_hashtable p_user_func (to_uint64 (idx + 1))
      else ret NULL
  end.

Definition ht_compare (p_hashtable : ptr) (p_user_func : p_comp) : M ptr :=
  (* the source writes [(p_user_func)], true for a pointer that is not null *)
  if (p_hashtable =? NULL) || negb (is_null_fn p_user_func) then
    fprintf_stderr "Invalid argument passed to ht_match." ;;; ret NULL
  else
    t <- load_table p_hashtable ;;
    compare_for (S (Z.to_nat (capacity t))) p_hashtable p_user_func 0.

(** ** ht_delete *)

(** The [while] loop of [ht_delete]; returns the final
    [(p_prev_entry, p_temp_entry)]. *)
Fixpoint delete_loop (fuel : nat) (p_prev_entry p_temp_entry : ptr) (key : string)
  : M (ptr * ptr) :=
  match fuel with
  | O => diverge
  | S n =>
      if p_temp_entry =? NULL then ret (p_prev_entry, p_temp_entry)
      else
        e <- load_entry p_temp_entry ;;
        k <- load_chars (p_key e) ;;
        if strcmp k key =? 0 then ret (p_prev_entry, p_temp_entry)
        else delete_loop n p_temp_entry (p_next e) key
  end.

Definition ht_delete (p_hashtable : ptr) (p_key : option string) (p_del_func : p_del)
  : M bool :=
  match p_key with
  | None => fprintf_stderr "Invalid argument passed to ht_find." ;;; ret false
  | Some key =>
      if p_hashtable =? NULL then
        fprintf_stderr "Invalid argument passed to ht_find." ;;; ret false
      else
        t <- load_table p_hashtable ;;
        ht_index <- hash_key p_key (capacity t) ;;
        if ht_index =? -1 then ret false
        else
          t <- load_table p_hashtable ;;
          p_temp_entry <- load_slot (pp_entries t) ht_index ;;
          r <- with_fuel (fun n => delete_loop n NULL p_temp_entry key) ;;
          let p_prev_entry := fst r in
          let p_temp_entry := snd r in
          if p_temp_entry =? NULL then ret false
          else
            (* the else branch assigns the local variable only *)
            p_prev_entry <-
              (if p_prev_entry =? NULL then
                 e <- load_entry p_temp_entry ;;
                 t <- load_table p_hashtable ;;
                 store_slot (pp_entries t) ht_index (p_next e) ;;;
                 ret p_prev_entry
               else
                 e <- load_entry p_temp_entry ;;
                 ret (p_next e)) ;;
            e <- load_entry p_temp_entry ;;
            call p_del_func (p_data e) ;;;
            free p_temp_entry ;;;
            ret true
  end.

(** ** ht_destroy *)

(** The [while] loop that frees all nodes of a bucket but the last;
    returns the final [(p_temp_entry, p_bucket)]. *)
Fixpoint destroy_while (fuel : nat) (p_del_func : p_del) (p_temp_entry p_bucket : ptr)
  : M (ptr * ptr) :=
  match fuel with
  | O => diverge
  | S n =>
      b <- load_entry p_bucket ;;
      if negb (p_next b =? NULL) then
        let p_temp_entry := p_bucket in
        let p_bucket := p_next b in
        e <- load_entry p_temp_entry ;;
        call p_del_func (p_data e) ;;;
        e <- load_entry p_temp_entry ;;
        free (p_key e) ;;;
        free p_temp_entry ;;;
        destroy_while n p_del_func p_temp_entry p_bucket
      else ret (p_temp_entry, p_bucket)
  end.

Fixpoint destroy_for (fuel : nat) (p_hashtable : ptr) (p_del_func : p_del) (idx : Z)
  : M unit :=
  match fuel with
  | O => diverge
  | S n =>
      t <- load_table p_hashtable ;;
      if idx <? capacity t then
        p_temp_entry <- load_slot (pp_entries t) idx ;;
        (if negb (p_temp_entry =? NULL) then
           r <- with_fuel (fun m => destroy_while m p_del_func p_temp_entry p_temp_entry) ;;
           let p_temp_entry := fst r in
           let p_bucket := snd r in
           b <- load_entry p_bucket ;;
           call p_del_func (p_data b) ;;;
           e <- load_entry p_temp_entry ;;
           free (p_key e) ;;;
           free p_temp_entry
         else ret tt) ;;;
        destroy_for n p_hashtable p_del_func (to_uint64 (idx + 1))
      else ret tt
  end.

Definition ht_destroy (p_hashtable : ptr) (p_del_func : p_del) : M unit :=
  if (p_hashtable =? NULL) || is_null_fn p_del_func then
    fprintf_stderr "Invalid argument passed to ht_destroy."
  else
    t <- load_table p_hashtable ;;
    destroy_for (S (Z.to_nat (capacity t))) p_hashtable p_del_func 0 ;;;
    t <- load_table p_hashtable ;;
    free (pp_entries t) ;;;
    free p_hashtable.

(** ** Notions used to state the properties *)

Definition add_trace (evs : list event) (w : world) : world :=
  mk_world (heap w) (brk w) (oracle w) (trace w ++ evs).

(** What a computation yields, the final state left aside. *)
Inductive result (A : Type) : Type :=
| Value (a : A)
| Fault (f : fault)
| Loop.
Arguments Value {A} a.
Arguments Fault {A} f.
Arguments Loop {A}.

Definition finish {A} (r : result A) (w : world) : outcome A :=
  match r with
  | Value a => Ret a w
  | Fault f => Undef f
  | Loop => Diverge
  end.

(** An observer reads the memory and prints: what it yields and what it
    prints depend on memory, allocator and oracle only, and it leaves
    all three as they were. *)
Definition observer {A} (m : M A) : Prop :=
  forall h b o, exists (r : result A) (evs : list event),
    forall tr, m (mk_world h b o tr) = finish r (mk_world h b o (tr ++ evs)).

(** A silent computation hands back the state it was given. *)
Definition silent {A} (m : M A) : Prop :=
  forall w a w', m w = Ret a w' -> w' = w.

(** Number of nodes on the chain that starts at [p], when the chain
    stays inside live [Entry] blocks and ends in [NULL]. *)
Fixpoint chain_length (fuel : nat) (h : gmap Z block) (p : ptr) : option nat :=
  match fuel with
  | O => None
  | S n =>
      if p =? NULL then Some O
      else match h !! p with
           | Some (Entry e) => S <$> chain_length n h (p_next e)
           | _ => None
           end
  end.

Fixpoint sum_chains (h : gmap Z block) (heads : list ptr) : option nat :=
  match heads with
  | [] => Some O
  | p :: r =>
      match chain_length (S (base.size h)) h p, sum_chains h r with
      | Some a, Some b => Some (a + b)%nat
      | _, _ => None
      end
  end.

(** Number of entries reachable by traversing all chains of the table
    at [p_hashtable]. *)
Definition count_entries (h : gmap Z block) (p_hashtable : ptr) : option nat :=
  match h !! p_hashtable with
  | Some (Table t) =>
      match h !! pp_entries t with
      | Some (Slots l) => sum_chains h l
      | _ => None
      end
  | _ => None
  end.

Definition table_size (h : gmap Z block) (p_hashtable : ptr) : option Z :=
  match h !! p_hashtable with
  | Some (Table t) => Some (size t)
  | _ => None
  end.

(** Callbacks that record each call in the trace. *)
Definition recording_del : ptr -> M unit :=
  fun v => emit (Call_del v).

Definition recording_comp (f : ptr -> ptr) : ptr -> M ptr :=
  fun v => emit (Call_comp v) ;;; ret (f v).

(** The state a computation leaves when it returns. *)
Definition state_after {A} (m : M A) (w : world) : world :=
  match m w with
  | Ret _ w' => w'
  | _ => w
  end.

(** The example of the specification after its two insertions: a table
    of capacity 7, at address 1, that maps "apple" to 100 and "banana"
    to 200. *)
Definition w_fruit : world :=
  state_after
    (t <- ht_create 7 ;;
     ht_insert t (Some "apple") 100 ;;;
     ht_insert t (Some "banana") 200)
    w_empty.

(** A state in which the first allocation succeeds and the second
    fails. *)
Definition w_second_alloc_fails : world := mk_world ∅ 1 [true; false] [].

(** The nodes a walk along [p_next] passes, as long as it stays in
    live [Entry] blocks. *)
Inductive chain_path (h : gmap Z block) : ptr -> list ptr -> Prop :=
| chain_path_nil p : chain_path h p []
| chain_path_cons p e ps :
    h !! p = Some (Entry e) -> chain_path h (p_next e) ps ->
    chain_path h p (p :: ps).

(** A destructor that leaves the memory as it is (it may print, or
    record its call). *)
Definition keeps_heap (d : ptr -> M unit) : Prop :=
  forall v w u w', d v w = Ret u w' -> heap w' = heap w.

(** ** ht_print *)

(** What [ht_print] writes to stdout, one item for each call: [puts]
    with its text, [printf("Index: %u.\n", idx)] with its argument and
    [printf("Key: %s.\n", p_key)] with the bytes of the key. *)
Inductive stdout_call : Type :=
| Puts (s : string)
| Printf_index (idx : Z)
| Printf_key (key : string).

(** The inner [while] loop of [ht_print]; yields what it printed. *)
Fixpoint print_while (fuel : nat) (p_temp_entry : ptr) : M (list stdout_call) :=
  match fuel with
  | O => diverge
  | S n =>
      if p_temp_entry =? NULL then ret []
      else
        e <- load_entry p_temp_entry ;;
        k <- load_chars (p_key e) ;;
        e <- load_entry p_temp_entry ;;
        rest <- print_while n (p_next e) ;;
        ret (Printf_key k :: rest)
  end.

(** The [for] loop of [ht_print] over the bucket indexes from [idx] on. *)
Fixpoint print_for (fuel : nat) (p_hashtable : ptr) (idx : Z)
  : M (list stdout_call) :=
  match fuel with
  | O => diverge
  | S n =>
      t <- load_table p_hashtable ;;
      if idx <? capacity t then
        head <- load_slot (pp_entries t) idx ;;
        out <- (if negb (head =? NULL)
                then
                  keys <- with_fuel (fun m => print_while m head) ;;
                  ret (Printf_index idx :: keys)
                else ret []) ;;
        rest <- print_for n p_hashtable (to_uint64 (idx + 1)) ;;
        ret (out ++ rest)
      else ret []
  end.

(** [ht_print]; the value is the list of its calls that write to
    stdout, in order. *)
Definition ht_print (p_hashtable : ptr) : M (list stdout_call) :=
  if p_hashtable =? NULL then
    fprintf_stderr "Invalid argument passed to ht_print." ;;; ret []
  else
    t <- load_table p_hashtable ;;
    body <- print_for (S (Z.to_nat (capacity t))) p_hashtable 0 ;;
    ret (Puts "Beginning of table." :: body ++ [Puts "End of table."]).

(** ** open_file *)

Definition open_file (p_hashtable : ptr) (p_filename : option string) : M bool :=
  if (p_hashtable =? NULL) || is_null_fn p_filename then
    fprintf_stderr "Invalid argument passed to open_file." ;;; ret false
  else ret false.

(** ** Further notions used to state the properties *)

Definition fits_long_long (z : Z) : bool := (- two63 <=? z) && (z <? two63).

(** Whether every product and sum that [hash_key]'s loop forms on its
    way over [s] can be held by a [long long]. *)
Fixpoint hash_loop_fits (s : string) (hash power : Z) : bool :=
  match s with
  | EmptyString => true
  | String c r =>
      let digit := char_val c - char_val "a"%char + 1 in
      fits_long_long (digit * power) &&
      fits_long_long (hash + digit * power) &&
      fits_long_long (power * choice) &&
      hash_loop_fits r (Z.rem (hash + digit * power) large)
                       (Z.rem (power * choice) large)
  end.

(** The bucket index [hash_key] gives a key in a table of [cap]
    buckets. *)
Definition bucket_of (key : string) (cap : Z) : Z :=
  to_int64 (to_uint64 (hash_loop (cstr key) (-1) 1) mod cap).

(** Every live block lies at a positive address below the allocator's
    next one: what [calloc] hands out is not in use. *)
Definition below_brk (w : world) : Prop :=
  forall a b, heap w !! a = Some b -> 0 < a < brk w.

(** [h'] still holds every node and every key that [h] holds. *)
Definition nodes_kept (h h' : gmap Z block) : Prop :=
  (forall q e, h !! q = Some (Entry e) -> h' !! q = Some (Entry e)) /\
  (forall q s, h !! q = Some (Chars s) -> h' !! q = Some (Chars s)).

(** A caller that inserts the pairs in order and stops at the first
    insertion that fails. *)
Fixpoint insert_all (p_hashtable : ptr) (kvs : list (string * ptr)) : M bool :=
  match kvs with
  | [] => ret true
  | (k, v) :: r =>
      b <- ht_insert p_hashtable (Some k) v ;;
      if b then insert_all p_hashtable r else ret false
  end.

(** The table at [p_hashtable] is [t] and its bucket array is [l]. *)
Definition table_at (p_hashtable : ptr) (t : hashtable_t) (l : list ptr)
  (w : world) : Prop :=
  heap w !! p_hashtable = Some (Table t) /\
  heap w !! pp_entries t = Some (Slots l).

(** A new table of capacity 7, at address 1. *)
Definition w_table : world := state_after (ht_create 7) w_empty.

(** The table of the example with "cherry" inserted as well. *)
Definition w_cherry : world :=
  state_after (ht_insert 1 (Some "cherry") 300) w_fruit.

(** The new table in a state in which the allocation of a node succeeds
    and the allocation of its key fails. *)
Definition w_key_alloc_fails : world :=
  mk_world (heap w_table) (brk w_table) [true; false] (trace w_table).

Definition fruit_pairs : list (string * Z) :=
  [("apple", 100); ("banana", 200); ("cherry", 300)].

(** * Properties *)

(** ** The monad *)

Lemma bind_inv {A B} (m : M A) (k : A -> M B) w b w2 :
  bind m k w = Ret b w2 -> exists a w1, m w = Ret a w1 /\ k a w1 = Ret b w2.
Proof.
  unfold bind. destruct (m w) as [a w1| |]; [eauto | discriminate | discriminate].
Qed.

Lemma bind_ret_eq {A B} (m : M A) (k : A -> M B) w a w1 :
  m w = Ret a w1 -> bind m k w = k a w1.
Proof. intros H. unfold bind. now rewrite H. Qed.

Lemma world_eta w : mk_world (heap w) (brk w) (oracle w) (trace w) = w.
Proof. now destruct w. Qed.

Lemma add_trace_nil w : add_trace [] w = w.
Proof. unfold add_trace. rewrite app_nil_r. apply world_eta. Qed.

(** Takes the first computation of a sequence that returned apart. *)
Ltac bind_step H x w Hx :=
  apply bind_inv in H as (x & w & Hx & H).

(** Closes a goal whose hypothesis says that an exit returning [false]
    (or [NULL]) returned something else. *)
Ltac failed_exit H :=
  repeat (let u := fresh in let w := fresh in let E := fresh in
          apply bind_inv in H as (u & w & E & H));
  inversion H.

(** ** Observers *)

Lemma observer_ret {A} (a : A) : observer (ret a).
Proof.
  intros h b o. exists (Value a), []. intros tr. now rewrite app_nil_r.
Qed.

Lemma observer_emit e : observer (emit e).
Proof. intros h b o. exists (Value tt), [e]. reflexivity. Qed.

Lemma observer_diverge {A} : observer (@diverge A).
Proof. intros h b o. exists Loop, []. reflexivity. Qed.

Lemma observer_bind {A B} (m : M A) (k : A -> M B) :
  observer m -> (forall a, observer (k a)) -> observer (bind m k).
Proof.
  intros Hm Hk h b o.
  destruct (Hm h b o) as [[a|f|] [evs H]].
  - destruct (Hk a h b o) as [r' [evs' H']].
    exists r', (evs ++ evs'). intros tr.
    unfold bind. rewrite H. simpl. rewrite H'. now rewrite app_assoc.
  - exists (Fault f), []. intros tr. unfold bind. now rewrite H.
  - exists Loop, []. intros tr. unfold bind. now rewrite H.
Qed.

Lemma observer_load_entry p : observer (load_entry p).
Proof.
  intros h b o.
  exists (match h !! p with Some (Entry e) => Value e | _ => Fault (Invalid_read p) end), [].
  intros tr. unfold load_entry. simpl. rewrite app_nil_r.
  now destruct (h !! p) as [[]|].
Qed.

Lemma observer_load_table p : observer (load_table p).
Proof.
  intros h b o.
  exists (match h !! p with Some (Table t) => Value t | _ => Fault (Invalid_read p) end), [].
  intros tr. unfold load_table. simpl. rewrite app_nil_r.
  now destruct (h !! p) as [[]|].
Qed.

Lemma observer_load_chars p : observer (load_chars p).
Proof.
  intros h b o.
  exists (match h !! p with Some (Chars s) => Value s | _ => Fault (Invalid_read p) end), [].
  intros tr. unfold load_chars. simpl. rewrite app_nil_r.
  now destruct (h !! p) as [[]|].
Qed.

Lemma observer_load_slot a i : observer (load_slot a i).
Proof.
  intros h b o.
  exists (match h !! a with
          | Some (Slots l) =>
              if (0 <=? i) && (i <? Z.of_nat (length l))
              then match l !! Z.to_nat i with
                   | Some p => Value p
                   | None => Fault (Out_of_bounds i)
                   end
              else Fault (Out_of_bounds i)
          | _ => Fault (Invalid_read a)
          end), [].
  intros tr. unfold load_slot. simpl. rewrite app_nil_r.
  destruct (h !! a) as [[| |l|]|]; try reflexivity.
  destruct ((0 <=? i) && (i <? Z.of_nat (length l))); try reflexivity.
  now destruct (l !! Z.to_nat i).
Qed.

Lemma observer_with_fuel {A} (f : nat -> M A) :
  (forall n, observer (f n)) -> observer (with_fuel f).
Proof.
  intros H h b o. destruct (H (S (base.size h)) h b o) as [r [evs E]].
  exists r, evs. intros tr. unfold with_fuel. simpl. apply E.
Qed.

Create HintDb observer.
#[local] Hint Resolve observer_ret observer_emit observer_diverge
  observer_load_entry observer_load_table observer_load_chars
  observer_load_slot : observer.

(** Splits a sequence of observers into its steps. *)
Ltac observe :=
  repeat first
    [ solve [auto with observer]
    | apply observer_bind; [| intros ?]
    | apply observer_with_fuel; intros ?
    | match goal with |- observer (if ?c then _ else _) => destruct c end ].

Lemma observer_hash_key p_key cap : observer (hash_key p_key cap).
Proof. unfold hash_key, fprintf_stderr. destruct p_key; observe. Qed.

Lemma observer_find_loop fuel : forall p key, observer (find_loop fuel p key).
Proof.
  induction fuel as [|n IH]; intros p key; simpl; [apply observer_diverge|].
  observe; apply IH.
Qed.

Lemma observer_ht_find_key p_hashtable p_key : observer (ht_find_key p_hashtable p_key).
Proof.
  unfold ht_find_key, fprintf_stderr.
  destruct p_key as [key|]; observe;
    first [apply observer_hash_key | apply observer_find_loop].
Qed.

Lemma observer_heap {A} (m : M A) w a w' :
  observer m -> m w = Ret a w' ->
  heap w' = heap w /\ brk w' = brk w /\ oracle w' = oracle w.
Proof.
  intros Hm H. destruct w as [h b o tr].
  destruct (Hm h b o) as [r [evs E]].
  rewrite E in H. destruct r; simpl in H; try discriminate.
  inversion H; subst. simpl. auto.
Qed.

(** ** Silent computations *)

Lemma silent_ret {A} (a : A) : silent (ret a).
Proof. intros w a' w' H. now inversion H. Qed.

Lemma silent_bind {A B} (m : M A) (k : A -> M B) :
  silent m -> (forall a, silent (k a)) -> silent (bind m k).
Proof.
  intros Hm Hk w b w2 H. bind_step H a w1 H1.
  apply Hm in H1. subst w1. now apply Hk in H.
Qed.

Lemma silent_load_entry p : silent (load_entry p).
Proof.
  intros w e w' H. unfold load_entry in H.
  destruct (heap w !! p) as [[]|]; now inversion H.
Qed.

Lemma silent_load_table p : silent (load_table p).
Proof.
  intros w e w' H. unfold load_table in H.
  destruct (heap w !! p) as [[]|]; now inversion H.
Qed.

Lemma silent_load_chars p : silent (load_chars p).
Proof.
  intros w e w' H. unfold load_chars in H.
  destruct (heap w !! p) as [[]|]; now inversion H.
Qed.

Lemma silent_load_slot a i : silent (load_slot a i).
Proof.
  intros w e w' H. unfold load_slot in H.
  destruct (heap w !! a) as [[| |l|]|]; try discriminate.
  destruct ((0 <=? i) && (i <? Z.of_nat (length l))); try discriminate.
  destruct (l !! Z.to_nat i); now inversion H.
Qed.

Lemma silent_with_fuel {A} (f : nat -> M A) :
  (forall n, silent (f n)) -> silent (with_fuel f).
Proof. intros H w a w' E. unfold with_fuel in E. now apply H in E. Qed.

Create HintDb silent.
#[local] Hint Resolve silent_ret silent_load_entry silent_load_table
  silent_load_chars silent_load_slot : silent.

Ltac quiet :=
  repeat first
    [ solve [auto with silent]
    | apply silent_bind; [| intros ?]
    | apply silent_with_fuel; intros ?
    | match goal with |- silent (if ?c then _ else _) => destruct c end ].

Lemma silent_find_loop fuel : forall p key, silent (find_loop fuel p key).
Proof.
  induction fuel as [|n IH]; intros p key; simpl.
  - intros w a w' H. discriminate.
  - quiet; apply IH.
Qed.

Lemma silent_delete_loop fuel : forall q p key, silent (delete_loop fuel q p key).
Proof.
  induction fuel as [|n IH]; intros q p key; simpl.
  - intros w a w' H. discriminate.
  - quiet; apply IH.
Qed.

(** ** Memory accesses *)

Lemma load_table_ok p w t : heap w !! p = Some (Table t) -> load_table p w = Ret t w.
Proof. unfold load_table. now intros ->. Qed.

Lemma load_entry_ok p w e : heap w !! p = Some (Entry e) -> load_entry p w = Ret e w.
Proof. unfold load_entry. now intros ->. Qed.

Lemma load_chars_ok p w s : heap w !! p = Some (Chars s) -> load_chars p w = Ret s w.
Proof. unfold load_chars. now intros ->. Qed.

Lemma load_slot_ok a i w l p :
  heap w !! a = Some (Slots l) -> 0 <= i < Z.of_nat (length l) ->
  l !! Z.to_nat i = Some p -> load_slot a i w = Ret p w.
Proof.
  unfold load_slot. intros -> Hi ->.
  destruct ((0 <=? i) && (i <? Z.of_nat (length l))) eqn:E; [reflexivity | lia].
Qed.

Lemma calloc_ok n sz init w :
  n * sz < two64 -> oracle w = [] ->
  calloc n sz init w
    = Ret (brk w) (mk_world (<[brk w := init]> (heap w)) (brk w + 1) [] (trace w)).
Proof.
  intros Hn Ho. unfold calloc. rewrite Ho. simpl.
  destruct (two64 <=? n * sz) eqn:E; [lia | reflexivity].
Qed.

Lemma update_table_ok p f w t :
  heap w !! p = Some (Table t) ->
  update_table p f w = Ret tt (set_heap (<[p := Table (f t)]> (heap w)) w).
Proof. unfold update_table. now intros ->. Qed.

Lemma update_entry_ok p f w e :
  heap w !! p = Some (Entry e) ->
  update_entry p f w = Ret tt (set_heap (<[p := Entry (f e)]> (heap w)) w).
Proof. unfold update_entry. now intros ->. Qed.

Lemma store_chars_ok p s w s0 :
  heap w !! p = Some (Chars s0) ->
  store_chars p s w = Ret tt (set_heap (<[p := Chars s]> (heap w)) w).
Proof. unfold store_chars. now intros ->. Qed.

Lemma store_slot_ok a i v w l :
  heap w !! a = Some (Slots l) -> 0 <= i < Z.of_nat (length l) ->
  store_slot a i v w
    = Ret tt (set_heap (<[a := Slots (<[Z.to_nat i := v]> l)]> (heap w)) w).
Proof.
  unfold store_slot. intros -> Hi.
  destruct ((0 <=? i) && (i <? Z.of_nat (length l))) eqn:E; [reflexivity | lia].
Qed.

Lemma load_table_inv p w t w' :
  load_table p w = Ret t w' -> w' = w /\ heap w !! p = Some (Table t).
Proof.
  unfold load_table. intros H.
  destruct (heap w !! p) as [[|t0| |]|]; try discriminate.
  inversion H; subst. auto.
Qed.

Lemma load_entry_inv p w e w' :
  load_entry p w = Ret e w' -> w' = w /\ heap w !! p = Some (Entry e).
Proof.
  unfold load_entry. intros H.
  destruct (heap w !! p) as [[e0| | |]|]; try discriminate.
  inversion H; subst. auto.
Qed.

Lemma calloc_inv n sz init w p w' :
  calloc n sz init w = Ret p w' -> (p =? NULL) = false ->
  p = brk w /\ heap w' = <[brk w := init]> (heap w).
Proof.
  unfold calloc. intros H Hp.
  destruct (two64 <=? n * sz).
  { inversion H; subst. discriminate. }
  destruct (match oracle w with [] => true | b :: _ => b end).
  - inversion H; subst. auto.
  - inversion H; subst. discriminate.
Qed.

Lemma free_inv p w u w' :
  free p w = Ret u w' -> p <> NULL ->
  exists b, heap w !! p = Some b /\ heap w' = delete p (heap w).
Proof.
  unfold free. intros H Hp.
  destruct (p =? NULL) eqn:E; [apply Z.eqb_eq in E; contradiction|].
  destruct (heap w !! p) as [b|]; [|discriminate].
  inversion H; subst. eauto.
Qed.

Lemma update_entry_inv p f w u w' :
  update_entry p f w = Ret u w' ->
  exists e, heap w !! p = Some (Entry e) /\ heap w' = <[p := Entry (f e)]> (heap w).
Proof.
  unfold update_entry. intros H.
  destruct (heap w !! p) as [[e| | |]|]; try discriminate.
  inversion H; subst. eauto.
Qed.

Lemma update_table_inv p f w u w' :
  update_table p f w = Ret u w' ->
  exists t, heap w !! p = Some (Table t) /\ heap w' = <[p := Table (f t)]> (heap w).
Proof.
  unfold update_table. intros H.
  destruct (heap w !! p) as [[|t| |]|]; try discriminate.
  inversion H; subst. eauto.
Qed.

Lemma store_chars_inv p s w u w' :
  store_chars p s w = Ret u w' ->
  exists s0, heap w !! p = Some (Chars s0) /\ heap w' = <[p := Chars s]> (heap w).
Proof.
  unfold store_chars. intros H.
  destruct (heap w !! p) as [[| | |s0]|]; try discriminate.
  inversion H; subst. eauto.
Qed.

Lemma store_slot_inv a i v w u w' :
  store_slot a i v w = Ret u w' ->
  exists l, heap w !! a = Some (Slots l) /\ 0 <= i < Z.of_nat (length l) /\
            heap w' = <[a := Slots (<[Z.to_nat i := v]> l)]> (heap w).
Proof.
  unfold store_slot. intros H.
  destruct (heap w !! a) as [[| |l|]|]; try discriminate.
  destruct ((0 <=? i) && (i <? Z.of_nat (length l))) eqn:E; try discriminate.
  inversion H; subst. exists l. split; [reflexivity|]. split; [lia|reflexivity].
Qed.

Lemma emit_heap e w u w' : emit e w = Ret u w' -> heap w' = heap w.
Proof. intros H. inversion H. reflexivity. Qed.

(** Reads through a pile of updates at other addresses. *)
Ltac look :=
  cbn [heap brk oracle trace set_heap];
  repeat (rewrite lookup_insert_eq || (rewrite lookup_insert_ne by (lia || congruence))).

(** Runs the first computation of a sequence with the lemma [lem]. *)
Ltac run_step lem :=
  erewrite bind_ret_eq;
  [| eapply lem; look; try reflexivity; try eassumption; try lia].

(** ** Strings *)

Lemma strcmp_cstr s : strcmp (cstr s) s = 0.
Proof.
  induction s as [|c r IH]; simpl; [reflexivity|].
  destruct (Ascii.eqb c NUL) eqn:E.
  - apply Ascii.eqb_eq in E. subst c. reflexivity.
  - simpl. rewrite Ascii.eqb_refl, E. exact IH.
Qed.

Lemma uchar_range c : 0 <= uchar c < 256.
Proof.
  unfold uchar. pose proof (Ascii.nat_ascii_bounded c). lia.
Qed.

Lemma char_val_range c : -128 <= char_val c <= 127.
Proof.
  unfold char_val. pose proof (uchar_range c).
  destruct (uchar c <? 128) eqn:E; [apply Z.ltb_lt in E | apply Z.ltb_ge in E]; lia.
Qed.

(** ** hash_key *)

(** The accumulator stays strictly between [-large] and [large]. *)
Lemma hash_loop_bound s : forall hash power,
  - large < hash < large -> - large < hash_loop s hash power < large.
Proof.
  induction s as [|c r IH]; intros hash power Hh; simpl; [exact Hh|].
  apply IH.
  match goal with |- _ < Z.rem ?x _ < _ =>
    pose proof (Z.rem_bound_abs x large) as Hb end.
  assert (Hl : large <> 0) by discriminate.
  specialize (Hb Hl). rewrite (Z.abs_eq large) in Hb by (unfold large; lia). lia.
Qed.

(** One round of the loop stays inside [long long], so the exact
    arithmetic of the model is the arithmetic of the machine. *)
Lemma hash_round_fits c hash power :
  - large < hash < large -> 0 <= power < large ->
  - two63 <= hash + (char_val c - char_val "a" + 1) * power < two63 /\
  0 <= power * choice < two63 /\
  0 <= Z.rem (power * choice) large < large.
Proof.
  intros Hh Hp. pose proof (char_val_range c) as Hc.
  change (char_val "a") with 97.
  assert (Hd : -224 <= char_val c - 97 + 1 <= 31) by lia.
  unfold large, choice, two63 in *.
  split; [nia|]. split; [lia|].
  apply Z.rem_bound_pos; lia.
Qed.

Lemma to_uint64_range z : 0 <= to_uint64 z < two64.
Proof. unfold to_uint64. apply Z.mod_pos_bound. reflexivity. Qed.

(** The reduced value as the [long long] the function returns. *)
Lemma reduce_never_sentinel u cap :
  0 <= u < two64 -> 1 <= cap < two64 -> to_int64 (u mod cap) <> -1.
Proof.
  intros Hu Hc. pose proof (Z.mod_pos_bound u cap) as Hm.
  unfold to_int64. rewrite (Z.mod_small (u mod cap) two64) by lia.
  destruct (u mod cap <? two63) eqn:E.
  - apply Z.ltb_lt in E. lia.
  - lia.
Qed.

Lemma reduce_in_range u cap :
  0 <= u < two64 -> 1 <= cap <= two63 ->
  to_int64 (u mod cap) = u mod cap /\ 0 <= u mod cap < cap.
Proof.
  intros Hu Hc. pose proof (Z.mod_pos_bound u cap) as Hm.
  assert (H63 : two63 < two64) by reflexivity.
  unfold to_int64. rewrite (Z.mod_small (u mod cap) two64) by lia.
  destruct (u mod cap <? two63) eqn:E.
  - split; [reflexivity | lia].
  - apply Z.ltb_ge in E. lia.
Qed.

Lemma hash_key_some key cap w :
  cap <> 0 ->
  hash_key (Some key) cap w
    = Ret (to_int64 (to_uint64 (hash_loop (cstr key) (-1) 1) mod cap)) w.
Proof.
  intros H. unfold hash_key. destruct (cap =? 0) eqn:E; [lia | reflexivity].
Qed.

Lemma hash_index_in_range key cap :
  1 <= cap <= two63 ->
  0 <= to_int64 (to_uint64 (hash_loop (cstr key) (-1) 1) mod cap) < cap.
Proof.
  intros Hc.
  destruct (reduce_in_range _ cap (to_uint64_range (hash_loop (cstr key) (-1) 1)) Hc)
    as [-> H]. exact H.
Qed.

(** An index that is not the sentinel was computed without a message,
    and is the same in every state. *)
Lemma hash_key_value key cap w i w1 :
  hash_key (Some key) cap w = Ret i w1 -> (i =? -1) = false ->
  forall w', hash_key (Some key) cap w' = Ret i w'.
Proof.
  unfold hash_key. intros H Hi w'. destruct (cap =? 0).
  - bind_step H u wa He. inversion H; subst. discriminate.
  - inversion H; subst. reflexivity.
Qed.

(** C2 (amended): [hash_key] yields a value that depends on the key and
    the capacity only and touches nothing but stderr; the value is the
    sentinel -1 exactly when the key is null or the capacity is 0; for a
    key that is not null and a capacity between 1 and 2^63 it is a
    bucket index in [0, capacity). *)
Theorem hash_key_contract (p_key : option string) (cap : Z) :
  0 <= cap < two64 ->
  exists (r : Z) (evs : list event),
    (forall w, hash_key p_key cap w = Ret r (add_trace evs w)) /\
    (r = -1 <-> (p_key = None \/ cap = 0)) /\
    (p_key <> None -> 1 <= cap <= two63 -> 0 <= r < cap).
Proof.
  intros Hc. unfold hash_key. destruct p_key as [key|].
  - destruct (cap =? 0) eqn:E.
    + apply Z.eqb_eq in E.
      exists (-1), [Fprintf_stderr "Invalid argument passed to hash_key."].
      split; [reflexivity|]. split; [tauto | lia].
    + apply Z.eqb_neq in E.
      exists (to_int64 (to_uint64 (hash_loop (cstr key) (-1) 1) mod cap)), [].
      split; [intros w; now rewrite add_trace_nil|].
      pose proof (to_uint64_range (hash_loop (cstr key) (-1) 1)) as Hu.
      split.
      * split.
        -- intros H. exfalso. revert H. apply reduce_never_sentinel; lia.
        -- intros [H|H]; [discriminate | contradiction].
      * intros _ Hr. destruct (reduce_in_range _ cap Hu Hr) as [-> Hm]. exact Hm.
  - exists (-1), [Fprintf_stderr "Invalid argument passed to hash_key."].
    split; [reflexivity|]. split; [tauto | intros H; now elim H].
Qed.

(** ** ht_find_key *)

Lemma ht_find_key_heap p_hashtable p_key w r w' :
  ht_find_key p_hashtable p_key w = Ret r w' -> heap w' = heap w.
Proof.
  intros H. eapply observer_heap in H; [tauto | apply observer_ht_find_key].
Qed.

(** C10: a call of [ht_find_key] that returns leaves the memory (the
    bucket array, every chain, [size] and [capacity]) and the allocator
    exactly as they were, whether or not the key is found. *)
Theorem ht_find_key_frame p_hashtable p_key w r w' :
  ht_find_key p_hashtable p_key w = Ret r w' ->
  heap w' = heap w /\ brk w' = brk w /\ oracle w' = oracle w.
Proof.
  intros H. eapply observer_heap; [apply observer_ht_find_key | exact H].
Qed.

(** When [ht_find_key] returns a value, the guards were passed and
    nothing was printed. *)
Lemma ht_find_key_found p_hashtable key w v w1 :
  ht_find_key p_hashtable (Some key) w = Ret v w1 -> v <> NULL ->
  w1 = w /\ (p_hashtable =? NULL) = false /\
  exists t i, load_table p_hashtable w = Ret t w /\
              hash_key (Some key) (capacity t) w = Ret i w /\
              (i =? -1) = false.
Proof.
  intros H Hv. unfold ht_find_key in H.
  destruct (p_hashtable =? NULL) eqn:Et.
  { bind_step H u wa He. inversion H; subst. now elim Hv. }
  bind_step H t wa H1.
  pose proof (silent_load_table _ _ _ _ H1) as ->.
  bind_step H i wb H2.
  destruct (i =? -1) eqn:Ei.
  { inversion H; subst. now elim Hv. }
  pose proof (hash_key_value _ _ _ _ _ H2 Ei) as Hh.
  rewrite Hh in H2. inversion H2; subst wb. clear H2.
  assert (Hs : w1 = w).
  { revert H. quiet. apply silent_find_loop. }
  subst w1. split; [reflexivity|]. split; [reflexivity|].
  exists t, i. auto.
Qed.

(** What [ht_find_key] yields does not depend on what was printed
    before. *)
Lemma ht_find_key_add_trace p_hashtable p_key w v evs :
  ht_find_key p_hashtable p_key w = Ret v w ->
  ht_find_key p_hashtable p_key (add_trace evs w) = Ret v (add_trace evs w).
Proof.
  intros H. destruct w as [h b o tr]. unfold add_trace. simpl.
  destruct (observer_ht_find_key p_hashtable p_key h b o) as [r [evs' E]].
  rewrite E in H. rewrite E. destruct r; simpl in *; try discriminate.
  inversion H as [[Ha Htr]]. rewrite <- (app_nil_r tr) in Htr at 2.
  apply app_inv_head in Htr. subst evs'. now rewrite !app_nil_r.
Qed.

(** A bucket whose head is null holds no key. *)
Lemma ht_find_key_null_bucket p_hashtable K w t l :
  heap w !! p_hashtable = Some (Table t) ->
  heap w !! pp_entries t = Some (Slots l) ->
  Z.of_nat (length l) = capacity t ->
  1 <= capacity t <= two63 ->
  p_hashtable <> NULL ->
  l !! Z.to_nat (to_int64 (to_uint64 (hash_loop (cstr K) (-1) 1) mod capacity t))
    = Some NULL ->
  ht_find_key p_hashtable (Some K) w = Ret NULL w.
Proof.
  intros Ht Ha Hlen Hcap Hp Hl.
  pose proof (hash_index_in_range K (capacity t) Hcap) as Hi.
  set (i := to_int64 (to_uint64 (hash_loop (cstr K) (-1) 1) mod capacity t)) in *.
  unfold ht_find_key.
  assert (Et : (p_hashtable =? NULL) = false) by (apply Z.eqb_neq; exact Hp).
  rewrite Et.
  rewrite (bind_ret_eq _ _ _ _ _ (load_table_ok _ _ _ Ht)).
  rewrite (bind_ret_eq _ _ _ _ _ (hash_key_some K (capacity t) w ltac:(lia))).
  fold i. assert (Ei : (i =? -1) = false) by (apply Z.eqb_neq; lia). rewrite Ei.
  rewrite (bind_ret_eq _ _ _ _ _ (load_table_ok _ _ _ Ht)).
  erewrite bind_ret_eq; [| eapply load_slot_ok; [exact Ha | lia | exact Hl]].
  reflexivity.
Qed.

(** A walk that uses up its steps has passed as many nodes as it had
    steps ... *)
Lemma find_loop_diverge_path fuel : forall p key w,
  find_loop fuel p key w = Diverge ->
  exists ps, length ps = fuel /\ chain_path (heap w) p ps.
Proof.
  induction fuel as [|n IH]; intros p key w H.
  - exists []. split; [reflexivity | constructor].
  - simpl in H. destruct (p =? NULL); [discriminate|].
    unfold bind in H at 1.
    destruct (load_entry p w) as [e w1|f|] eqn:He; [|discriminate|].
    2:{ exfalso. revert He. unfold load_entry.
        destruct (heap w !! p) as [[]|]; discriminate. }
    apply load_entry_inv in He as [-> He].
    unfold bind in H at 1.
    destruct (load_chars (p_key e) w) as [k w1|f|] eqn:Hk; [|discriminate|].
    2:{ exfalso. revert Hk. unfold load_chars.
        destruct (heap w !! p_key e) as [[]|]; discriminate. }
    apply silent_load_chars in Hk as ->.
    destruct (strcmp k key =? 0); [discriminate|].
    destruct (IH _ _ _ H) as (ps & Hlen & Hp).
    exists (p :: ps). split; [simpl; now rewrite Hlen|].
    apply (chain_path_cons _ _ e); assumption.
Qed.

Lemma chain_path_live h p ps : chain_path h p ps -> forall x, x ∈ ps -> x ∈ dom h.
Proof.
  induction 1 as [|p e ps He _ IH]; intros x Hx.
  - inversion Hx.
  - apply elem_of_cons in Hx as [->|Hx]; [|now apply IH].
    apply elem_of_dom. eauto.
Qed.

(** ... and with one step more than there are blocks it has been
    through some node twice: [Diverge] is reported for cyclic chains
    only, on which the C loop does not end. *)
Lemma find_loop_diverge_cycle p key w :
  with_fuel (fun n => find_loop n p key) w = Diverge ->
  exists ps, chain_path (heap w) p ps /\ ~ NoDup ps.
Proof.
  unfold with_fuel. intros H.
  apply find_loop_diverge_path in H as (ps & Hlen & Hp).
  exists ps. split; [exact Hp|]. intros Hnd.
  assert (Hsub : ps ⊆+ elements (dom (heap w))).
  { apply NoDup_submseteq; [exact Hnd|].
    intros x Hx. apply elem_of_elements. eapply chain_path_live; eassumption. }
  apply submseteq_length in Hsub.
  change (length (elements (dom (heap w)))) with (base.size (dom (heap w))) in Hsub.
  rewrite size_dom in Hsub. lia.
Qed.

(** ** ht_insert *)

(** C6: when the table already holds key K with value V (that is,
    [ht_find_key] returns V for K), [ht_insert] of K with another value
    returns false and prints the duplicate-key message; the memory is
    unchanged, nothing is overwritten, and [ht_find_key] still returns
    V for K. *)
Theorem ht_insert_duplicate p_hashtable K V V' w w1 :
  ht_find_key p_hashtable (Some K) w = Ret V w1 ->
  V <> NULL -> V' <> NULL ->
  ht_insert p_hashtable (Some K) V' w
    = Ret false (add_trace [Fprintf_stderr "Entry exists."] w) /\
  heap (add_trace [Fprintf_stderr "Entry exists."] w) = heap w /\
  ht_find_key p_hashtable (Some K) (add_trace [Fprintf_stderr "Entry exists."] w)
    = Ret V (add_trace [Fprintf_stderr "Entry exists."] w).
Proof.
  intros Hf HV HV'.
  destruct (ht_find_key_found _ _ _ _ _ Hf HV) as (-> & Et & t & i & Hl & Hh & Hi).
  split; [|split].
  - unfold ht_insert. rewrite Et.
    assert (E' : (V' =? NULL) = false) by (apply Z.eqb_neq; exact HV').
    rewrite E'. simpl.
    rewrite (bind_ret_eq _ _ _ _ _ Hl), (bind_ret_eq _ _ _ _ _ Hh), Hi.
    rewrite (bind_ret_eq _ _ _ _ _ Hf).
    assert (E : (V =? NULL) = false) by (apply Z.eqb_neq; exact HV).
    rewrite E. reflexivity.
  - reflexivity.
  - now apply ht_find_key_add_trace.
Qed.

(** Right after a successful insertion the key is found with its
    value. *)
Lemma ht_insert_then_find p_hashtable K V w w' :
  ht_insert p_hashtable (Some K) V w = Ret true w' ->
  ht_find_key p_hashtable (Some K) w' = Ret V w'.
Proof.
  intros H. unfold ht_insert in H.
  destruct (p_hashtable =? NULL) eqn:Et; cbn [orb negb] in H; [failed_exit H|].
  destruct (V =? NULL) eqn:EV; cbn [orb negb] in H; [failed_exit H|].
  bind_step H t0 wa Hl0. apply load_table_inv in Hl0 as [-> Hl0].
  bind_step H i wa Hh.
  destruct (i =? -1) eqn:Ei; [inversion H|].
  pose proof (hash_key_value _ _ _ _ _ Hh Ei) as Hhash.
  rewrite Hhash in Hh. inversion Hh; subst wa. clear Hh.
  bind_step H found wa Hf.
  destruct (found =? NULL) eqn:Ef; cbn [orb negb] in H; [|failed_exit H].
  apply ht_find_key_heap in Hf.
  bind_step H p wb Hc1.
  destruct (p =? NULL) eqn:Ep; [failed_exit H|].
  apply calloc_inv in Hc1 as [Hp Hh1]; [|exact Ep]. rewrite <- Hp in Hh1.
  bind_step H k wc Hc2.
  bind_step H u1 wd Hu1. apply update_entry_inv in Hu1 as (e1 & He1 & Hh3).
  destruct (k =? NULL) eqn:Ek; [failed_exit H|].
  apply calloc_inv in Hc2 as [Hk Hh2]; [|exact Ek]. rewrite <- Hk in Hh2.
  bind_step H u2 we Hs. apply store_chars_inv in Hs as (s0 & Hs0 & Hh4).
  bind_step H u3 wf Hu2. apply update_entry_inv in Hu2 as (e2 & He2 & Hh5).
  bind_step H t1 wg Hl1. apply load_table_inv in Hl1 as [-> Hl1].
  bind_step H hd0 wg Hls. pose proof (silent_load_slot _ _ _ _ _ Hls) as ->.
  bind_step H u4 wg Hu3. apply update_entry_inv in Hu3 as (e3 & He3 & Hh6).
  bind_step H t2 wh Hl2. apply load_table_inv in Hl2 as [-> Hl2].
  bind_step H u5 wh Hss. apply store_slot_inv in Hss as (l & Hl & Hir & Hh7).
  bind_step H u6 wi Hut. apply update_table_inv in Hut as (t3 & Ht3 & Hh8).
  inversion H; subst wi. clear H.
  set (a := pp_entries t2) in *.
  (* the addresses involved are pairwise distinct *)
  rewrite Hh2, lookup_insert in He1.
  destruct (decide (k = p)) as [|Hkp]; [discriminate He1|].
  rewrite Hh4, lookup_insert in He2.
  destruct (decide (k = p)) as [|_]; [contradiction|].
  rewrite Hh3, lookup_insert_eq in He2. inversion He2; subst e2. clear He2.
  rewrite Hh5, lookup_insert_eq in He3. inversion He3; subst e3. clear He3.
  rewrite Hh6, lookup_insert in Hl2.
  destruct (decide (p = p_hashtable)) as [|Hpt]; [discriminate Hl2|].
  rewrite Hh6, lookup_insert in Hl.
  destruct (decide (p = a)) as [|Hpa]; [discriminate Hl|].
  rewrite Hl2 in Hl1. inversion Hl1; subst t1. clear Hl1.
  rewrite Hh5, lookup_insert_ne in Hl by exact Hpa.
  rewrite Hh4, lookup_insert in Hl.
  destruct (decide (k = a)) as [|Hka]; [discriminate Hl|].
  rewrite Hh5, lookup_insert_ne in Hl2 by exact Hpt.
  rewrite Hh4, lookup_insert in Hl2.
  destruct (decide (k = p_hashtable)) as [|Hkt]; [discriminate Hl2|].
  rewrite Hh3, lookup_insert_ne in Hl2 by exact Hpt.
  rewrite Hh2, lookup_insert_ne in Hl2 by exact Hkt.
  rewrite Hh1, lookup_insert_ne in Hl2 by exact Hpt.
  rewrite Hf, Hl0 in Hl2. inversion Hl2; subst t2. clear Hl2.
  rewrite Hh7, lookup_insert in Ht3.
  destruct (decide (a = p_hashtable)) as [|Hat]; [discriminate Ht3|].
  (* what the final memory holds at the four addresses *)
  assert (Lt : heap w' !! p_hashtable
               = Some (Table (set_size (to_uint64 (size t3 + 1)) t3))).
  { rewrite Hh8. apply lookup_insert_eq. }
  assert (Et3 : capacity t3 = capacity t0 /\ pp_entries t3 = a).
  { rewrite Hh6, lookup_insert_ne in Ht3 by exact Hpt.
    rewrite Hh5, lookup_insert_ne in Ht3 by exact Hpt.
    rewrite Hh4, lookup_insert_ne in Ht3 by exact Hkt.
    rewrite Hh3, lookup_insert_ne in Ht3 by exact Hpt.
    rewrite Hh2, lookup_insert_ne in Ht3 by exact Hkt.
    rewrite Hh1, lookup_insert_ne in Ht3 by exact Hpt.
    rewrite Hf, Hl0 in Ht3. injection Ht3 as <-. split; reflexivity. }
  destruct Et3 as [Ecap Earr].
  assert (La : heap w' !! a = Some (Slots (<[Z.to_nat i := p]> l))).
  { rewrite Hh8, lookup_insert_ne by congruence. rewrite Hh7. apply lookup_insert_eq. }
  assert (Lp : heap w' !! p
               = Some (Entry (set_p_next hd0 (set_p_data V (set_p_key k e1))))).
  { rewrite Hh8, lookup_insert_ne by congruence.
    rewrite Hh7, lookup_insert_ne by congruence.
    rewrite Hh6. apply lookup_insert_eq. }
  assert (Lk : heap w' !! k = Some (Chars (cstr K))).
  { rewrite Hh8, lookup_insert_ne by congruence.
    rewrite Hh7, lookup_insert_ne by congruence.
    rewrite Hh6, lookup_insert_ne by congruence.
    rewrite Hh5, lookup_insert_ne by congruence.
    rewrite Hh4. apply lookup_insert_eq. }
  (* run the lookup *)
  unfold ht_find_key. rewrite Et.
  rewrite (bind_ret_eq _ _ _ _ _ (load_table_ok _ _ _ Lt)).
  cbn [capacity set_size]. rewrite Ecap.
  rewrite (bind_ret_eq _ _ _ _ _ (Hhash w')), Ei.
  rewrite (bind_ret_eq _ _ _ _ _ (load_table_ok _ _ _ Lt)).
  cbn [pp_entries set_size]. rewrite Earr.
  assert (Ls : load_slot a i w' = Ret p w').
  { apply (load_slot_ok _ _ _ _ _ La).
    - rewrite length_insert. exact Hir.
    - apply list_lookup_insert_eq. lia. }
  rewrite (bind_ret_eq _ _ _ _ _ Ls).
  assert (Lf : with_fuel (fun n => find_loop n p K) w' = Ret p w').
  { unfold with_fuel. cbn [find_loop]. rewrite Ep.
    rewrite (bind_ret_eq _ _ _ _ _ (load_entry_ok _ _ _ Lp)).
    cbn [p_key set_p_next set_p_data set_p_key].
    rewrite (bind_ret_eq _ _ _ _ _ (load_chars_ok _ _ _ Lk)).
    rewrite strcmp_cstr. reflexivity. }
  rewrite (bind_ret_eq _ _ _ _ _ Lf), Ep.
  rewrite (bind_ret_eq _ _ _ _ _ (load_entry_ok _ _ _ Lp)).
  reflexivity.
Qed.

(** Inserting a key that is absent succeeds when memory is available:
    the table and its bucket array are live, every live address is
    below the allocator's next one, and the oracle lets every
    allocation through.  [size] goes up by one. *)
Lemma ht_insert_absent_key p_hashtable K V w t l :
  heap w !! p_hashtable = Some (Table t) ->
  heap w !! pp_entries t = Some (Slots l) ->
  Z.of_nat (length l) = capacity t ->
  1 <= capacity t <= two63 ->
  ht_find_key p_hashtable (Some K) w = Ret NULL w ->
  oracle w = [] ->
  0 < p_hashtable < brk w -> 0 < pp_entries t < brk w ->
  V <> NULL ->
  Z.of_nat (strlen K) + 1 < two64 ->
  exists w',
    ht_insert p_hashtable (Some K) V w = Ret true w' /\
    heap w' !! p_hashtable = Some (Table (set_size (to_uint64 (size t + 1)) t)).
Proof.
  intros Ht Ha Hlen Hcap Hfind Ho Hpt Hpa HV Hk.
  pose proof (hash_index_in_range K (capacity t) Hcap) as Hi.
  set (i := to_int64 (to_uint64 (hash_loop (cstr K) (-1) 1) mod capacity t)) in *.
  assert (Hl : exists hd0, l !! Z.to_nat i = Some hd0).
  { apply lookup_lt_is_Some_2. lia. }
  destruct Hl as [hd0 Hl].
  assert (Hat : pp_entries t <> p_hashtable).
  { intros E. rewrite E, Ht in Ha. discriminate Ha. }
  eexists. unfold ht_insert.
  assert (Et : (p_hashtable =? NULL) = false) by (apply Z.eqb_neq; unfold NULL; lia).
  assert (EV : (V =? NULL) = false) by (apply Z.eqb_neq; exact HV).
  rewrite Et, EV. cbn [orb].
  rewrite (bind_ret_eq _ _ _ _ _ (load_table_ok _ _ _ Ht)).
  rewrite (bind_ret_eq _ _ _ _ _ (hash_key_some K (capacity t) w ltac:(lia))).
  fold i. assert (Ei : (i =? -1) = false) by (apply Z.eqb_neq; lia). rewrite Ei.
  rewrite (bind_ret_eq _ _ _ _ _ Hfind). cbn [Z.eqb NULL negb].
  rewrite (bind_ret_eq _ _ _ _ _ (calloc_ok 1 sizeof_entry_t _ w eq_refl Ho)).
  assert (Ep : (brk w =? NULL) = false) by (apply Z.eqb_neq; unfold NULL; lia).
  rewrite Ep.
  erewrite bind_ret_eq; [| apply calloc_ok; [rewrite Z.mul_1_r; exact Hk | reflexivity]].
  cbn [heap brk oracle trace].
  run_step update_entry_ok.
  assert (Ek : (brk w + 1 =? NULL) = false) by (apply Z.eqb_neq; unfold NULL; lia).
  rewrite Ek.
  run_step store_chars_ok.
  run_step update_entry_ok.
  run_step load_table_ok.
  erewrite bind_ret_eq; [| eapply load_slot_ok; [look; exact Ha | lia | exact Hl]].
  run_step update_entry_ok.
  run_step load_table_ok.
  erewrite bind_ret_eq; [| eapply store_slot_ok; [look; exact Ha | lia]].
  run_step update_table_ok.
  split; [reflexivity|].
  look. reflexivity.
Qed.

(** ** ht_create *)

Lemma ht_create_zero w :
  ht_create 0 w
    = Ret NULL (add_trace [Fprintf_stderr "Hashtable cannot have 0 capacity."] w).
Proof. reflexivity. Qed.

(** With both allocations granted the new table has [N] empty buckets
    and size 0. *)
Lemma ht_create_ok (N : Z) (w : world) :
  1 <= N -> N * sizeof_entry_t < two64 -> oracle w = [] -> brk w <> NULL ->
  ht_create N w
    = Ret (brk w)
        (mk_world
           (<[brk w := Table (mk_hashtable (brk w + 1) 0 N)]>
              (<[brk w + 1 := Slots (replicate (Z.to_nat N) NULL)]>
                 (<[brk w := Table (mk_hashtable NULL 0 0)]> (heap w))))
           (brk w + 2) [] (trace w)).
Proof.
  intros HN Hsz Ho Hb. unfold ht_create.
  destruct (N =? 0) eqn:E; [lia|].
  rewrite (bind_ret_eq _ _ _ _ _ (calloc_ok 1 sizeof_hashtable_t _ w eq_refl Ho)).
  assert (Eb : (brk w =? NULL) = false) by (apply Z.eqb_neq; exact Hb).
  rewrite Eb.
  erewrite bind_ret_eq; [| apply calloc_ok; [exact Hsz | reflexivity]].
  cbn [heap brk oracle trace].
  run_step update_table_ok.
  run_step update_table_ok.
  run_step update_table_ok.
  unfold ret, set_heap. cbn [heap brk oracle trace set_pp_entries set_size set_capacity pp_entries size capacity].
  rewrite !insert_insert_eq.
  replace (brk w + 1 + 1) with (brk w + 2) by lia.
  reflexivity.
Qed.

Lemma capacity_fits N : 1 <= N -> N * sizeof_entry_t < two64 -> 1 <= N <= two63.
Proof. unfold sizeof_entry_t, two64, two63. lia. Qed.

Lemma ht_create_then_insert (N : Z) (K : string) (V : ptr) (w : world) :
  1 <= N -> N * sizeof_entry_t < two64 -> oracle w = [] -> 0 < brk w ->
  V <> NULL -> Z.of_nat (strlen K) + 1 < two64 ->
  exists t w1 w2,
    ht_create N w = Ret t w1 /\
    ht_insert t (Some K) V w1 = Ret true w2.
Proof.
  intros HN Hsz Ho Hb HV HK.
  pose proof (capacity_fits N HN Hsz) as Hcap.
  assert (Hb' : brk w <> NULL) by (unfold NULL; lia).
  eexists _, _. 
  pose proof (ht_create_ok N w HN Hsz Ho Hb') as Hc.
  set (w1 := mk_world _ _ _ _) in Hc.
  assert (Ht : heap w1 !! brk w = Some (Table (mk_hashtable (brk w + 1) 0 N))).
  { subst w1. look. reflexivity. }
  assert (Ha : heap w1 !! (brk w + 1) = Some (Slots (replicate (Z.to_nat N) NULL))).
  { subst w1. look. reflexivity. }
  assert (Hlen : Z.of_nat (length (replicate (Z.to_nat N) NULL)) = N).
  { rewrite length_replicate. lia. }
  assert (Hf : ht_find_key (brk w) (Some K) w1 = Ret NULL w1).
  { eapply ht_find_key_null_bucket; [exact Ht | exact Ha | exact Hlen | exact Hcap
                                    | exact Hb' |].
    apply lookup_replicate_2.
    pose proof (hash_index_in_range K N Hcap). cbn [capacity]. lia. }
  destruct (ht_insert_absent_key (brk w) K V w1 _ _ Ht Ha Hlen Hcap Hf)
    as (w2 & Hins & _); try (subst w1; cbn [brk oracle pp_entries]; first [reflexivity | lia | assumption]).
  exists w2. split; [exact Hc | exact Hins].
Qed.

Lemma calloc_overflow n sz init w :
  two64 <= n * sz -> calloc n sz init w = Ret NULL w.
Proof.
  intros H. unfold calloc. destruct (two64 <=? n * sz) eqn:E; [reflexivity | lia].
Qed.

(** A request for 2^64 - 1 buckets cannot be allocated, and the table
    is returned all the same, with that capacity and no bucket array:
    [hash_key] does get to see a capacity above 2^63. *)
Lemma ht_create_huge_capacity :
  exists w1,
    ht_create (two64 - 1) w_empty = Ret 1 w1 /\
    heap w1 !! 1 = Some (Table (mk_hashtable NULL 0 (two64 - 1))) /\
    ht_find_key 1 (Some "A") w1 = Undef (Invalid_read NULL).
Proof.
  eexists. split; [|split].
  - unfold ht_create.
    destruct (two64 - 1 =? 0) eqn:E; [discriminate E|].
    rewrite (bind_ret_eq _ _ _ _ _ (calloc_ok 1 sizeof_hashtable_t _ w_empty eq_refl eq_refl)).
    change (brk w_empty =? NULL) with false. cbv iota.
    erewrite bind_ret_eq; [| apply calloc_overflow; discriminate].
    run_step update_table_ok.
    run_step update_table_ok.
    run_step update_table_ok.
    reflexivity.
  - look. reflexivity.
  - unfold ht_find_key. change (1 =? NULL) with false. cbv iota.
    run_step load_table_ok.
    cbn [capacity set_capacity set_size set_pp_entries pp_entries size].
    rewrite (bind_ret_eq _ _ _ _ _ (hash_key_some "A" (two64 - 1) _ ltac:(discriminate))).
    change (to_int64 (to_uint64 (hash_loop (cstr "A") (-1) 1) mod (two64 - 1)))
      with (-32).
    change (-32 =? -1) with false. cbv iota.
    run_step load_table_ok.
    reflexivity.
Qed.

(** ** ht_delete *)

Lemma table_size_store_slot h a l l' t :
  h !! a = Some (Slots l) ->
  table_size (<[a := Slots l']> h) t = table_size h t.
Proof.
  intros H. unfold table_size. rewrite lookup_insert.
  case_decide; [subst; now rewrite H | reflexivity].
Qed.

Lemma table_size_free h p e t :
  h !! p = Some (Entry e) ->
  table_size (delete p h) t = table_size h t.
Proof.
  intros H. unfold table_size. rewrite lookup_delete.
  case_decide; [subst; now rewrite H | reflexivity].
Qed.

(** On no path does [ht_delete] write [size]. *)
Lemma ht_delete_keeps_size p_hashtable p_key d w b w' :
  keeps_heap d ->
  ht_delete p_hashtable p_key (Some d) w = Ret b w' ->
  table_size (heap w') p_hashtable = table_size (heap w) p_hashtable.
Proof.
  intros Hd H. unfold ht_delete in H. destruct p_key as [key|].
  2:{ bind_step H u wa He. inversion H; subst. apply emit_heap in He. now rewrite He. }
  destruct (p_hashtable =? NULL) eqn:Et.
  { bind_step H u wa He. inversion H; subst. apply emit_heap in He. now rewrite He. }
  bind_step H t wa Hl. apply load_table_inv in Hl as [-> Hl].
  bind_step H i wa Hh.
  assert (Hha : heap wa = heap w).
  { destruct w as [h b0 o tr].
    destruct (observer_hash_key (Some key) (capacity t) h b0 o) as [r [evs E]].
    rewrite E in Hh. destruct r; simpl in Hh; try discriminate. now inversion Hh. }
  destruct (i =? -1); [inversion H; subst; now rewrite Hha|].
  bind_step H t1 wb Hl1. apply load_table_inv in Hl1 as [-> Hl1].
  bind_step H hd0 wb Hs. pose proof (silent_load_slot _ _ _ _ _ Hs) as ->.
  bind_step H r wb Hdl.
  assert (wb = wa) as ->.
  { revert Hdl. apply silent_with_fuel. intros n. apply silent_delete_loop. }
  destruct r as [q p]. cbn [fst snd] in H.
  destruct (p =? NULL) eqn:Ep; [inversion H; subst; now rewrite Hha|].
  bind_step H q' wc Hbr.
  assert (Hc : table_size (heap wc) p_hashtable = table_size (heap wa) p_hashtable
               /\ exists e, heap wc !! p = Some (Entry e)).
  { destruct (q =? NULL).
    - bind_step Hbr e wd He. apply load_entry_inv in He as [-> He].
      bind_step Hbr t2 wd Hl2. apply load_table_inv in Hl2 as [-> Hl2].
      bind_step Hbr u wd Hss. apply store_slot_inv in Hss as (l & Hsl & _ & Hhs).
      inversion Hbr; subst. rewrite Hhs. split.
      + eapply table_size_store_slot; exact Hsl.
      + exists e. rewrite lookup_insert_ne; [exact He|]. intros E. rewrite E, He in Hsl. discriminate Hsl.
    - bind_step Hbr e wd He. apply load_entry_inv in He as [-> He].
      inversion Hbr; subst. split; [reflexivity | eauto]. }
  destruct Hc as [Hc _].
  bind_step H e wd He. apply load_entry_inv in He as [-> He].
  bind_step H u wd Hcall. apply Hd in Hcall.
  bind_step H u' we Hfree.
  apply free_inv in Hfree as (blk & Hblk & Hhf); [|apply Z.eqb_neq; exact Ep].
  inversion H; subst. rewrite Hhf.
  rewrite Hcall, He in Hblk. injection Hblk as <-.
  rewrite Hcall. rewrite (table_size_free _ _ _ _ He). rewrite Hc, Hha. reflexivity.
Qed.

(** ** The empty key *)

(** C9 (amended): for the empty string and a capacity of at least 1,
    [hash_key] reads no byte and returns (2^64 - 1) mod capacity, the
    start value -1 taken as an unsigned 64-bit number and reduced; that
    is never the sentinel -1, and for a capacity up to 2^63 it is a
    bucket index.  The empty string is therefore a key like any other:
    on a table just created, with memory available, inserting it
    succeeds and it is then found with its value. *)
Theorem hash_key_empty_string (cap : Z) (w : world) :
  1 <= cap < two64 ->
  hash_key (Some EmptyString) cap w = Ret (to_int64 ((two64 - 1) mod cap)) w /\
  to_int64 ((two64 - 1) mod cap) <> -1 /\
  (cap <= two63 -> 0 <= to_int64 ((two64 - 1) mod cap) < cap) /\
  (cap * sizeof_entry_t < two64 -> oracle w = [] -> 0 < brk w ->
   forall V, V <> NULL ->
   exists t w1 w2,
     ht_create cap w = Ret t w1 /\
     ht_insert t (Some EmptyString) V w1 = Ret true w2 /\
     ht_find_key t (Some EmptyString) w2 = Ret V w2).
Proof.
  intros Hc. assert (Hu : 0 <= two64 - 1 < two64) by (unfold two64; lia).
  split; [|split; [|split]].
  - apply (hash_key_some EmptyString cap w). lia.
  - apply reduce_never_sentinel; [exact Hu | exact Hc].
  - intros H. destruct (reduce_in_range (two64 - 1) cap Hu) as [-> Hr]; [lia | exact Hr].
  - intros Hsz Ho Hb V HV.
    destruct (ht_create_then_insert cap EmptyString V w) as (t & w1 & w2 & H1 & H2);
      try assumption; [lia | reflexivity |].
    exists t, w1, w2. split; [exact H1|]. split; [exact H2|].
    exact (ht_insert_then_find _ _ _ _ _ H2).
Qed.

(** ** Runs of the program on concrete inputs *)

(** C1: three keys share the one bucket of a table of capacity 1; after
    the middle one is deleted, looking up the oldest key, which was
    inserted and never deleted, walks into the freed node: the lookup
    has undefined behaviour and does not return the value. *)
Theorem find_after_delete_of_other_key :
  exists t w1 w2 w3 w4 w5,
    ht_create 1 w_empty = Ret t w1 /\
    ht_insert t (Some "a") 100 w1 = Ret true w2 /\
    ht_insert t (Some "b") 200 w2 = Ret true w3 /\
    ht_insert t (Some "c") 300 w3 = Ret true w4 /\
    ht_delete t (Some "b") (Some recording_del) w4 = Ret true w5 /\
    ht_find_key t (Some "a") w5 = Undef (Invalid_read 5).
Proof.
  do 6 eexists.
  split; [vm_compute; reflexivity|].
  split; [vm_compute; reflexivity|].
  split; [vm_compute; reflexivity|].
  split; [vm_compute; reflexivity|].
  split; [vm_compute; reflexivity|].
  vm_compute; reflexivity.
Qed.

(** C3: deleting a key that is not at the head of its chain calls the
    destructor once on its value and frees its node, but the node before
    it keeps pointing to the freed node; a lookup of the deleted key
    then reads freed memory instead of returning empty. *)
Theorem delete_inner_node_not_unlinked :
  exists t w1 w2 w3 w4,
    ht_create 1 w_empty = Ret t w1 /\
    ht_insert t (Some "a") 100 w1 = Ret true w2 /\
    ht_insert t (Some "b") 200 w2 = Ret true w3 /\
    heap w3 !! 5 = Some (Entry (mk_entry 3 6 200)) /\
    heap w3 !! 3 = Some (Entry (mk_entry NULL 4 100)) /\
    ht_delete t (Some "a") (Some recording_del) w3 = Ret true w4 /\
    trace w4 = [Call_del 100] /\
    heap w4 !! 3 = None /\
    heap w4 !! 5 = Some (Entry (mk_entry 3 6 200)) /\
    ht_find_key t (Some "a") w4 = Undef (Invalid_read 3).
Proof.
  do 5 eexists.
  split; [vm_compute; reflexivity|].
  split; [vm_compute; reflexivity|].
  split; [vm_compute; reflexivity|].
  split; [vm_compute; reflexivity|].
  split; [vm_compute; reflexivity|].
  split; [vm_compute; reflexivity|].
  split; [vm_compute; reflexivity|].
  split; [vm_compute; reflexivity|].
  split; [vm_compute; reflexivity|].
  vm_compute; reflexivity.
Qed.

(** C5: after one insertion and the deletion of the same key no entry
    is reachable, and [size] is still 1: [ht_delete] does not write
    [size]. *)
Theorem size_not_decremented_by_delete :
  exists t w1 w2 w3,
    ht_create 1 w_empty = Ret t w1 /\
    table_size (heap w1) t = Some 0 /\
    count_entries (heap w1) t = Some 0%nat /\
    ht_insert t (Some "a") 100 w1 = Ret true w2 /\
    table_size (heap w2) t = Some 1 /\
    count_entries (heap w2) t = Some 1%nat /\
    ht_delete t (Some "a") (Some recording_del) w2 = Ret true w3 /\
    table_size (heap w3) t = Some 1 /\
    count_entries (heap w3) t = Some 0%nat.
Proof.
  do 4 eexists.
  split; [vm_compute; reflexivity|].
  split; [vm_compute; reflexivity|].
  split; [vm_compute; reflexivity|].
  split; [vm_compute; reflexivity|].
  split; [vm_compute; reflexivity|].
  split; [vm_compute; reflexivity|].
  split; [vm_compute; reflexivity|].
  split; [vm_compute; reflexivity|].
  vm_compute; reflexivity.
Qed.

(** C7: when the allocation of the bucket array fails, [ht_create]
    still returns the handle: a table with capacity 1 whose bucket
    array is the null pointer, on which the first insertion reads
    through that null pointer. *)
Theorem create_returns_table_without_buckets :
  exists t w1,
    ht_create 1 w_second_alloc_fails = Ret t w1 /\
    t <> NULL /\
    heap w1 !! t = Some (Table (mk_hashtable NULL 0 1)) /\
    trace w1 = [] /\
    ht_insert t (Some "a") 100 w1 = Undef (Invalid_read NULL).
Proof.
  do 2 eexists.
  split; [vm_compute; reflexivity|].
  split; [discriminate|].
  split; [vm_compute; reflexivity|].
  split; [vm_compute; reflexivity|].
  vm_compute; reflexivity.
Qed.

(** C8: [ht_destroy] tests its destructor argument and returns when it
    is null; [ht_delete] does not: with a null destructor and a key
    that is present it unlinks the node and calls through the null
    pointer instead of reporting an invalid argument. *)
Theorem delete_calls_null_destructor :
  (forall p_hashtable w,
      ht_destroy p_hashtable None w
        = Ret tt (add_trace [Fprintf_stderr "Invalid argument passed to ht_destroy."] w)) /\
  exists t w1 w2,
    ht_create 1 w_empty = Ret t w1 /\
    ht_insert t (Some "a") 100 w1 = Ret true w2 /\
    ht_delete t (Some "a") None w2 = Undef Null_call.
Proof.
  split.
  - intros p_hashtable w. unfold ht_destroy. simpl. rewrite orb_true_r. reflexivity.
  - do 3 eexists.
    split; [vm_compute; reflexivity|].
    split; [vm_compute; reflexivity|].
    vm_compute; reflexivity.
Qed.

(** C4: with a predicate that is present [ht_compare] takes the
    invalid-argument exit: it returns empty at once, whatever the table
    holds, and the predicate is never called. *)
Theorem ht_compare_rejects_present_predicate p_hashtable (f : ptr -> M ptr) w :
  ht_compare p_hashtable (Some f) w
    = Ret NULL (add_trace [Fprintf_stderr "Invalid argument passed to ht_match."] w).
Proof.
  unfold ht_compare. simpl. rewrite orb_true_r. reflexivity.
Qed.

(** On the table of the example a predicate that accepts every value
    finds nothing and is not called; without a predicate the scan calls
    through the null pointer at the first entry. *)
Lemma ht_compare_on_example :
  ht_compare 1 (Some (recording_comp (fun v => v))) w_fruit
    = Ret NULL (add_trace [Fprintf_stderr "Invalid argument passed to ht_match."] w_fruit) /\
  ht_find_key 1 (Some "apple") w_fruit = Ret 100 w_fruit /\
  ht_find_key 1 (Some "banana") w_fruit = Ret 200 w_fruit /\
  trace w_fruit = [] /\
  ht_compare 1 None w_fruit = Undef Null_call.
Proof.
  split; [vm_compute; reflexivity|].
  split; [vm_compute; reflexivity|].
  split; [vm_compute; reflexivity|].
  split; vm_compute; reflexivity.
Qed.

(** C2: with 2^64 - 1 buckets the key "A" is sent to -32, which is no
    bucket index. *)
Lemma hash_key_index_out_of_range :
  hash_key (Some "A") (two64 - 1) w_empty = Ret (-32) w_empty /\
  ~ (0 <= -32 < two64 - 1).
Proof.
  split; [vm_compute; reflexivity | lia].
Qed.

(** C9: the empty string hashes to bucket 1 of 7, not to the sentinel;
    it is inserted (which changes the memory), found and deleted like
    any other key. *)
Lemma empty_string_is_a_key :
  hash_key (Some EmptyString) 7 w_empty = Ret 1 w_empty /\
  exists t w1 w2 w3,
    ht_create 7 w_empty = Ret t w1 /\
    ht_insert t (Some EmptyString) 100 w1 = Ret true w2 /\
    heap w2 <> heap w1 /\
    ht_find_key t (Some EmptyString) w2 = Ret 100 w2 /\
    ht_delete t (Some EmptyString) (Some recording_del) w2 = Ret true w3 /\
    trace w3 = [Call_del 100].
Proof.
  split; [vm_compute; reflexivity|].
  do 4 eexists.
  split; [vm_compute; reflexivity|].
  split; [vm_compute; reflexivity|].
  split; [intros H; apply (f_equal (fun h => h !! 3)) in H; vm_compute in H; discriminate|].
  split; [vm_compute; reflexivity|].
  split; [vm_compute; reflexivity|].
  vm_compute; reflexivity.
Qed.

(** ** The theorems at concrete inputs *)

Lemma ht_find_key_frame_witness :
  (ht_find_key 1 (Some "apple") w_fruit = Ret 100 w_fruit /\
   heap w_fruit = heap w_fruit /\ brk w_fruit = brk w_fruit /\
   oracle w_fruit = oracle w_fruit) /\
  (ht_find_key 1 None w_fruit
     = Ret NULL (add_trace [Fprintf_stderr "Invalid argument passed to ht_find."] w_fruit) /\
   heap (add_trace [Fprintf_stderr "Invalid argument passed to ht_find."] w_fruit)
     = heap w_fruit).
Proof.
  split.
  - split; [vm_compute; reflexivity|].
    apply (ht_find_key_frame 1 (Some "apple") w_fruit 100 w_fruit).
    vm_compute; reflexivity.
  - split; [vm_compute; reflexivity|].
    apply (ht_find_key_frame 1 None w_fruit NULL
             (add_trace [Fprintf_stderr "Invalid argument passed to ht_find."] w_fruit)).
    vm_compute; reflexivity.
Defined.

Lemma ht_insert_duplicate_witness :
  ht_find_key 1 (Some "apple") w_fruit = Ret 100 w_fruit /\
  100 <> NULL /\ 300 <> NULL /\
  ht_insert 1 (Some "apple") 300 w_fruit
    = Ret false (add_trace [Fprintf_stderr "Entry exists."] w_fruit) /\
  heap (add_trace [Fprintf_stderr "Entry exists."] w_fruit) = heap w_fruit /\
  ht_find_key 1 (Some "apple") (add_trace [Fprintf_stderr "Entry exists."] w_fruit)
    = Ret 100 (add_trace [Fprintf_stderr "Entry exists."] w_fruit).
Proof.
  split; [vm_compute; reflexivity|].
  split; [discriminate|].
  split; [discriminate|].
  apply (ht_insert_duplicate 1 "apple" 100 300 w_fruit w_fruit).
  - vm_compute; reflexivity.
  - discriminate.
  - discriminate.
Defined.

Lemma hash_key_contract_witness :
  0 <= 7 < two64 /\
  exists (r : Z) (evs : list event),
    (forall w, hash_key (Some "apple") 7 w = Ret r (add_trace evs w)) /\
    (r = -1 <-> (Some "apple" = @None string \/ 7 = 0)) /\
    (Some "apple" <> @None string -> 1 <= 7 <= two63 -> 0 <= r < 7).
Proof.
  split; [unfold two64; lia|].
  apply (hash_key_contract (Some "apple") 7).
  unfold two64; lia.
Defined.

Lemma hash_key_empty_string_witness :
  1 <= 7 < two64 /\
  hash_key (Some EmptyString) 7 w_empty = Ret 1 w_empty /\
  1 <> -1 /\
  0 <= 1 < 7 /\
  exists t w1 w2,
    ht_create 7 w_empty = Ret t w1 /\
    ht_insert t (Some EmptyString) 100 w1 = Ret true w2 /\
    ht_find_key t (Some EmptyString) w2 = Ret 100 w2.
Proof.
  assert (H7 : 1 <= 7 < two64) by (unfold two64; lia).
  destruct (hash_key_empty_string 7 w_empty H7) as (A & B & C & D).
  split; [exact H7|].
  split; [exact A|].
  split; [exact B|].
  split; [apply C; unfold two63; lia|].
  apply D.
  - reflexivity.
  - reflexivity.
  - reflexivity.
  - discriminate.
Defined.

(** * Further properties *)

(** ** Memory accesses, continued *)

Lemma calloc_inv_world n sz init w p w' :
  calloc n sz init w = Ret p w' -> (p =? NULL) = false ->
  p = brk w /\
  w' = mk_world (<[brk w := init]> (heap w)) (brk w + 1) (tl (oracle w)) (trace w).
Proof.
  unfold calloc. intros H Hp.
  destruct (two64 <=? n * sz).
  { inversion H; subst. discriminate. }
  destruct (match oracle w with [] => true | b :: _ => b end).
  - inversion H; subst. auto.
  - inversion H; subst. discriminate.
Qed.

Lemma update_entry_inv_world p f w u w' :
  update_entry p f w = Ret u w' ->
  exists e, heap w !! p = Some (Entry e) /\
            w' = set_heap (<[p := Entry (f e)]> (heap w)) w.
Proof.
  unfold update_entry. intros H.
  destruct (heap w !! p) as [[e| | |]|]; try discriminate.
  inversion H; subst. eauto.
Qed.

Lemma update_table_inv_world p f w u w' :
  update_table p f w = Ret u w' ->
  exists t, heap w !! p = Some (Table t) /\
            w' = set_heap (<[p := Table (f t)]> (heap w)) w.
Proof.
  unfold update_table. intros H.
  destruct (heap w !! p) as [[|t| |]|]; try discriminate.
  inversion H; subst. eauto.
Qed.

Lemma store_chars_inv_world p s w u w' :
  store_chars p s w = Ret u w' ->
  exists s0, heap w !! p = Some (Chars s0) /\
             w' = set_heap (<[p := Chars s]> (heap w)) w.
Proof.
  unfold store_chars. intros H.
  destruct (heap w !! p) as [[| | |s0]|]; try discriminate.
  inversion H; subst. eauto.
Qed.

Lemma store_slot_inv_world a i v w u w' :
  store_slot a i v w = Ret u w' ->
  exists l, heap w !! a = Some (Slots l) /\ 0 <= i < Z.of_nat (length l) /\
            w' = set_heap (<[a := Slots (<[Z.to_nat i := v]> l)]> (heap w)) w.
Proof.
  unfold store_slot. intros H.
  destruct (heap w !! a) as [[| |l|]|]; try discriminate.
  destruct ((0 <=? i) && (i <? Z.of_nat (length l))) eqn:E; try discriminate.
  inversion H; subst. exists l. split; [reflexivity|]. split; [lia|reflexivity].
Qed.

Lemma load_slot_inv a i w p w' :
  load_slot a i w = Ret p w' ->
  w' = w /\ exists l, heap w !! a = Some (Slots l) /\
                      0 <= i < Z.of_nat (length l) /\ l !! Z.to_nat i = Some p.
Proof.
  unfold load_slot. intros H.
  destruct (heap w !! a) as [[| |l|]|]; try discriminate.
  destruct ((0 <=? i) && (i <? Z.of_nat (length l))) eqn:E; try discriminate.
  destruct (l !! Z.to_nat i) as [q|] eqn:El; inversion H; subst.
  split; [reflexivity|]. exists l. split; [reflexivity|]. split; [lia | exact El].
Qed.

Lemma calloc_world n sz init w p w' :
  calloc n sz init w = Ret p w' ->
  (p = NULL /\ heap w' = heap w /\ brk w' = brk w) \/
  (p = brk w /\ heap w' = <[brk w := init]> (heap w) /\ brk w' = brk w + 1).
Proof.
  unfold calloc. intros H.
  destruct (two64 <=? n * sz).
  { inversion H; subst. left. auto. }
  destruct (match oracle w with [] => true | b :: _ => b end).
  - inversion H; subst. right. auto.
  - inversion H; subst. left. auto.
Qed.

Lemma observer_keeps {A} (m : M A) w a w' :
  observer m -> m w = Ret a w' -> heap w' = heap w /\ brk w' = brk w.
Proof. intros Hm H. destruct (observer_heap m w a w' Hm H) as (?&?&?). auto. Qed.

Lemma observer_delete_loop fuel : forall q p key, observer (delete_loop fuel q p key).
Proof.
  induction fuel as [|n IH]; intros q p key; simpl; [apply observer_diverge|].
  observe; apply IH.
Qed.


(** ** hash_key, continued *)

Lemma hash_loop_fits_all s : forall hash power,
  - large < hash < large -> 0 <= power < large ->
  hash_loop_fits s hash power = true.
Proof.
  induction s as [|c r IH]; intros hash power Hh Hp; [reflexivity|].
  cbn [hash_loop_fits].
  destruct (hash_round_fits c hash power Hh Hp) as (H1 & H2 & H3).
  pose proof (char_val_range c) as Hc.
  assert (Hd : - two63 <= (char_val c - char_val "a" + 1) * power < two63).
  { change (char_val "a") with 97. unfold large, two63 in *. nia. }
  assert (Hr : - large < Z.rem (hash + (char_val c - char_val "a" + 1) * power) large < large).
  { match goal with |- _ < Z.rem ?x _ < _ =>
      pose proof (Z.rem_bound_abs x large ltac:(discriminate)) as Hb end.
    rewrite (Z.abs_eq large) in Hb by (unfold large; lia). lia. }
  rewrite (IH _ _ Hr H3).
  unfold fits_long_long.
  repeat (apply andb_true_intro; split); try reflexivity;
    first [apply Z.leb_le | apply Z.ltb_lt]; lia.
Qed.


(** X13: on its way over the bytes of any key the loop of [hash_key]
    forms no product or sum that a [long long] cannot hold (no signed
    overflow), and the accumulator it ends with lies strictly between
    -large and large. *)
Theorem hash_key_never_overflows (key : string) :
  hash_loop_fits (cstr key) (-1) 1 = true /\
  - large < hash_loop (cstr key) (-1) 1 < large.
Proof.
  split.
  - apply hash_loop_fits_all; unfold large; lia.
  - apply hash_loop_bound. unfold large; lia.
Qed.


(** ** Strings, continued *)

Lemma uchar_zero c : uchar c = 0 -> c = NUL.
Proof.
  unfold uchar. intros H.
  rewrite <- (ascii_nat_embedding c).
  replace (nat_of_ascii c) with 0%nat by lia. reflexivity.
Qed.

Lemma uchar_inj x y : uchar x = uchar y -> x = y.
Proof.
  unfold uchar. intros H.
  rewrite <- (ascii_nat_embedding x), <- (ascii_nat_embedding y).
  f_equal. lia.
Qed.

(** [strcmp] is 0 exactly on equal C strings. *)
Lemma strcmp_zero a : forall b, strcmp a b = 0 <-> cstr a = cstr b.
Proof.
  induction a as [|x a IH]; intros [|y b]; simpl.
  - tauto.
  - split; intros H.
    + assert (E : y = NUL) by (apply uchar_zero; lia). subst y. reflexivity.
    + destruct (Ascii.eqb y NUL) eqn:E; [|discriminate].
      apply Ascii.eqb_eq in E. subst y. reflexivity.
  - split; intros H.
    + assert (E : x = NUL) by (apply uchar_zero; lia). subst x. reflexivity.
    + destruct (Ascii.eqb x NUL) eqn:E; [|discriminate].
      apply Ascii.eqb_eq in E. subst x. reflexivity.
  - destruct (Ascii.eqb x y) eqn:Exy.
    + apply Ascii.eqb_eq in Exy. subst y.
      destruct (Ascii.eqb x NUL); [tauto|].
      rewrite IH. split; [intros ->; reflexivity | intros H; now injection H].
    + apply Ascii.eqb_neq in Exy. split; intros H.
      * exfalso. apply Exy. apply uchar_inj. lia.
      * exfalso. destruct (Ascii.eqb x NUL) eqn:Ex; destruct (Ascii.eqb y NUL) eqn:Ey.
        -- apply Ascii.eqb_eq in Ex, Ey. congruence.
        -- discriminate.
        -- discriminate.
        -- injection H as H1 H2. contradiction.
Qed.

Lemma cstr_idem s : cstr (cstr s) = cstr s.
Proof.
  induction s as [|c r IH]; simpl; [reflexivity|].
  destruct (Ascii.eqb c NUL) eqn:E; [reflexivity|]. simpl. now rewrite E, IH.
Qed.

Lemma strcmp_same_cstr k a b :
  cstr a = cstr b -> (strcmp k a =? 0) = (strcmp k b =? 0).
Proof.
  intros H. destruct (strcmp k a =? 0) eqn:Ea; symmetry.
  - apply Z.eqb_eq. apply Z.eqb_eq in Ea. apply strcmp_zero.
    apply strcmp_zero in Ea. congruence.
  - apply Z.eqb_neq. apply Z.eqb_neq in Ea. intros E. apply Ea.
    apply strcmp_zero. apply strcmp_zero in E. congruence.
Qed.


(** ** Lookups in a changed memory *)

(** A walk that ended ends the same way in a memory that kept the
    nodes and keys, given at least as many steps. *)
Lemma find_loop_transfer n : forall p K w q w1 w' m,
  find_loop n p K w = Ret q w1 ->
  nodes_kept (heap w) (heap w') -> (n <= m)%nat ->
  find_loop m p K w' = Ret q w'.
Proof.
  induction n as [|n IH]; intros p K w q w1 w' m H Hk Hm; [discriminate H|].
  destruct m as [|m]; [lia|]. simpl in *.
  destruct (p =? NULL). { inversion H; subst. reflexivity. }
  bind_step H e wa He. apply load_entry_inv in He as [-> He].
  bind_step H k wa Hc.
  assert (Hc' : heap w !! p_key e = Some (Chars k)).
  { unfold load_chars in Hc. destruct (heap w !! p_key e) as [[| | |s]|]; try discriminate.
    inversion Hc; subst. reflexivity. }
  apply silent_load_chars in Hc as ->.
  destruct Hk as [Hk1 Hk2].
  rewrite (bind_ret_eq _ _ _ _ _ (load_entry_ok _ _ _ (Hk1 _ _ He))).
  rewrite (bind_ret_eq _ _ _ _ _ (load_chars_ok _ _ _ (Hk2 _ _ Hc'))).
  destruct (strcmp k K =? 0). { inversion H; subst. reflexivity. }
  apply (IH _ _ _ _ _ _ _ H); [split; assumption | lia].
Qed.

(** The tail of [ht_find_key] behind its guards is silent. *)
Lemma ht_find_key_silent p_hashtable key w v w1 t :
  (p_hashtable =? NULL) = false ->
  heap w !! p_hashtable = Some (Table t) -> capacity t <> 0 ->
  ht_find_key p_hashtable (Some key) w = Ret v w1 -> w1 = w.
Proof.
  intros Et Ht Hc H. unfold ht_find_key in H. rewrite Et in H.
  rewrite (bind_ret_eq _ _ _ _ _ (load_table_ok _ _ _ Ht)) in H.
  rewrite (bind_ret_eq _ _ _ _ _ (hash_key_some key _ w Hc)) in H.
  match type of H with ?m w = _ => assert (Hs : silent m) end.
  { quiet. apply silent_find_loop. }
  exact (Hs _ _ _ H).
Qed.

(** What a successful insertion found and what it left. *)
Lemma ht_insert_true_inv p_hashtable K V w w' :
  ht_insert p_hashtable (Some K) V w = Ret true w' ->
  exists t l hd,
    let a := pp_entries t in
    let i := bucket_of K (capacity t) in
    let p := brk w in
    let k := brk w + 1 in
    (p_hashtable =? NULL) = false /\ (V =? NULL) = false /\
    heap w !! p_hashtable = Some (Table t) /\
    heap w !! a = Some (Slots l) /\
    capacity t <> 0 /\ (i =? -1) = false /\
    0 <= i < Z.of_nat (length l) /\ l !! Z.to_nat i = Some hd /\
    ht_find_key p_hashtable (Some K) w = Ret NULL w /\
    p <> NULL /\ k <> NULL /\
    p <> p_hashtable /\ k <> p_hashtable /\ p <> a /\ k <> a /\ a <> p_hashtable /\
    w' = mk_world
           (<[p_hashtable := Table (set_size (to_uint64 (size t + 1)) t)]>
              (<[a := Slots (<[Z.to_nat i := p]> l)]>
                 (<[p := Entry (mk_entry hd k V)]>
                    (<[k := Chars (cstr K)]> (heap w)))))
           (brk w + 2) (tl (tl (oracle w))) (trace w).
Proof.
  intros H. unfold ht_insert in H.
  destruct (p_hashtable =? NULL) eqn:Et; cbn [orb negb] in H; [failed_exit H|].
  destruct (V =? NULL) eqn:EV; cbn [orb negb] in H; [failed_exit H|].
  bind_step H t0 wa Hl0. apply load_table_inv in Hl0 as [-> Hl0].
  bind_step H i wa Hh.
  destruct (i =? -1) eqn:Ei; [inversion H|].
  assert (Hc : capacity t0 <> 0).
  { intros E. unfold hash_key in Hh. rewrite E in Hh. cbn in Hh.
    inversion Hh; subst. discriminate Ei. }
  rewrite (hash_key_some K _ w Hc) in Hh. inversion Hh; subst wa. clear Hh.
  fold (bucket_of K (capacity t0)) in H1. subst i.
  bind_step H found wa Hf.
  destruct (found =? NULL) eqn:Ef; cbn [orb negb] in H; [|failed_exit H].
  apply Z.eqb_eq in Ef. subst found.
  pose proof (ht_find_key_silent _ _ _ _ _ _ Et Hl0 Hc Hf) as ->.
  bind_step H p wb Hc1.
  destruct (p =? NULL) eqn:Ep; [failed_exit H|].
  apply calloc_inv_world in Hc1 as [Hp ->]; [|exact Ep].
  bind_step H k wc Hc2.
  bind_step H u1 wd Hu1. apply update_entry_inv_world in Hu1 as (e1 & He1 & ->).
  destruct (k =? NULL) eqn:Ek; [failed_exit H|].
  apply calloc_inv_world in Hc2 as [Hk ->]; [|exact Ek].
  cbn [heap brk oracle trace set_heap] in *.
  bind_step H u2 we Hs. apply store_chars_inv_world in Hs as (s0 & Hs0 & ->).
  bind_step H u3 wf Hu2. apply update_entry_inv_world in Hu2 as (e2 & He2 & ->).
  bind_step H t1 wg Hl1. apply load_table_inv in Hl1 as [-> Hl1].
  bind_step H hd0 wg Hls. apply load_slot_inv in Hls as (-> & l & Hl & Hir & Hhd).
  bind_step H u4 wg Hu3. apply update_entry_inv_world in Hu3 as (e3 & He3 & ->).
  bind_step H t2 wh Hl2. apply load_table_inv in Hl2 as [-> Hl2].
  bind_step H u5 wh Hss. apply store_slot_inv_world in Hss as (l2 & Hl2s & Hir2 & ->).
  bind_step H u6 wi Hut. apply update_table_inv_world in Hut as (t3 & Ht3 & ->).
  inversion H; subst w'. clear H.
  cbn [heap brk oracle trace set_heap] in *.
  subst p k.
  set (p := brk w) in *.
  assert (Hkp : p + 1 <> p) by lia.
  rewrite lookup_insert_ne, lookup_insert_eq in He1 by exact Hkp.
  injection He1 as <-.
  rewrite lookup_insert_ne, lookup_insert_eq in He2 by exact Hkp.
  injection He2 as <-.
  rewrite lookup_insert_eq in He3. injection He3 as <-.
  rewrite lookup_insert in Hl2. case_decide as Hpt; [discriminate Hl2|].
  rewrite lookup_insert_ne in Hl2 by exact Hpt.
  rewrite lookup_insert in Hl2. case_decide as Hkt; [discriminate Hl2|].
  rewrite !lookup_insert_ne in Hl2 by congruence.
  rewrite Hl0 in Hl2. injection Hl2 as <-.
  rewrite !lookup_insert_ne in Hl1 by congruence.
  rewrite Hl0 in Hl1. injection Hl1 as <-.
  rewrite lookup_insert in Hl2s. case_decide as Hpa; [discriminate Hl2s|].
  rewrite lookup_insert_ne in Hl2s by exact Hpa.
  rewrite lookup_insert in Hl2s. case_decide as Hka; [discriminate Hl2s|].
  rewrite !lookup_insert_ne in Hl2s by congruence.
  rewrite !lookup_insert_ne in Hl by congruence.
  rewrite Hl in Hl2s. injection Hl2s as <-.
  rewrite lookup_insert in Ht3. case_decide as Hat; [discriminate Ht3|].
  rewrite !lookup_insert_ne in Ht3 by congruence.
  rewrite Hl0 in Ht3. injection Ht3 as <-.
  exists t0, l, hd0. cbn zeta.
  split; [reflexivity|]. split; [reflexivity|]. split; [exact Hl0|]. split; [exact Hl|].
  split; [exact Hc|]. split; [exact Ei|]. split; [exact Hir|]. split; [exact Hhd|].
  split; [exact Hf|].
  split; [apply Z.eqb_neq; exact Ep|]. split; [apply Z.eqb_neq; exact Ek|].
  split; [exact Hpt|]. split; [exact Hkt|]. split; [exact Hpa|]. split; [exact Hka|].
  split; [exact Hat|].
  unfold set_heap. cbn [heap brk oracle trace].
  f_equal; [|lia].
  cbn [set_p_next set_p_data set_p_key p_next p_key p_data].
  f_equal. f_equal.
  apply map_eq. intros q. rewrite !lookup_insert.
  repeat case_decide; first [reflexivity | lia | congruence].
Qed.

(** The memory after a successful insertion, seen from the memory
    before it. *)
Lemma inserted_heap_facts (h : gmap Z block) t a p k (T : hashtable_t)
      (S0 : list Z) (E : entry_t) (C : string) tb l :
  h !! t = Some (Table tb) -> h !! a = Some (Slots l) ->
  h !! p = None -> h !! k = None ->
  p <> k ->
  let h' := <[t := Table T]> (<[a := Slots S0]> (<[p := Entry E]> (<[k := Chars C]> h))) in
  h' !! t = Some (Table T) /\ h' !! a = Some (Slots S0) /\
  h' !! p = Some (Entry E) /\ h' !! k = Some (Chars C) /\
  nodes_kept h h' /\ base.size h' = S (S (base.size h)).
Proof.
  intros Ht Ha Hp Hk Hpk h'.
  assert (Hat : a <> t) by (intros ->; congruence).
  assert (Hpt : p <> t) by (intros ->; congruence).
  assert (Hkt : k <> t) by (intros ->; congruence).
  assert (Hpa : p <> a) by (intros ->; congruence).
  assert (Hka : k <> a) by (intros ->; congruence).
  subst h'. split; [apply lookup_insert_eq|].
  split; [rewrite lookup_insert_ne by congruence; apply lookup_insert_eq|].
  split; [rewrite !lookup_insert_ne by congruence; apply lookup_insert_eq|].
  split; [rewrite !lookup_insert_ne by congruence; apply lookup_insert_eq|].
  split.
  - split; intros q x Hq;
      rewrite !lookup_insert_ne by (intros ->; congruence); exact Hq.
  - rewrite map_size_insert_Some.
    2:{ rewrite lookup_insert_ne by congruence. rewrite !lookup_insert_ne by congruence. eauto. }
    rewrite map_size_insert_Some.
    2:{ rewrite !lookup_insert_ne by congruence. eauto. }
    rewrite map_size_insert_None.
    2:{ rewrite lookup_insert_ne by congruence. exact Hp. }
    rewrite map_size_insert_None by exact Hk. reflexivity.
Qed.

Lemma find_loop_S n p key :
  find_loop (S n) p key
  = if p =? NULL then ret p
    else e <- load_entry p ;;
         k <- load_chars (p_key e) ;;
         if strcmp k key =? 0 then ret p else find_loop n (p_next e) key.
Proof. reflexivity. Qed.

Lemma ht_insert_keeps_lookup p_hashtable K V w w' K' r w0 :
  ht_insert p_hashtable (Some K) V w = Ret true w' ->
  heap w !! brk w = None -> heap w !! (brk w + 1) = None ->
  cstr K' <> cstr K ->
  ht_find_key p_hashtable (Some K') w = Ret r w0 ->
  ht_find_key p_hashtable (Some K') w' = Ret r w'.
Proof.
  intros H Hfp Hfk Hne Hfind.
  destruct (ht_insert_true_inv _ _ _ _ _ H)
    as (t & l & hd & Et & EV & Ht & Ha & Hc & Ei & Hir & Hhd & Hf & Hp0 & Hk0
        & Hpt & Hkt & Hpa & Hka & Hat & Hw).
  cbn zeta in *.
  set (a := pp_entries t) in *. set (i := bucket_of K (capacity t)) in *.
  set (p := brk w) in *. set (k := brk w + 1) in *.
  assert (Hpk : p <> k) by (subst p k; lia).
  destruct (inserted_heap_facts (heap w) p_hashtable a p k
              (set_size (to_uint64 (size t + 1)) t) (<[Z.to_nat i := p]> l)
              (mk_entry hd k V) (cstr K) t l Ht Ha Hfp Hfk Hpk)
    as (Lt & La & Lp & Lk & Hkept & Hsize).
  assert (Hh' : heap w' = <[p_hashtable := Table (set_size (to_uint64 (size t + 1)) t)]>
              (<[a := Slots (<[Z.to_nat i := p]> l)]>
                 (<[p := Entry (mk_entry hd k V)]> (<[k := Chars (cstr K)]> (heap w)))))
    by (rewrite Hw; reflexivity).
  rewrite <- Hh' in Lt, La, Lp, Lk, Hkept, Hsize. clear Hw Hh'.
  (* the lookup before the insertion *)
  unfold ht_find_key in Hfind. rewrite Et in Hfind.
  rewrite (bind_ret_eq _ _ _ _ _ (load_table_ok _ _ _ Ht)) in Hfind.
  rewrite (bind_ret_eq _ _ _ _ _ (hash_key_some K' _ w Hc)) in Hfind.
  fold (bucket_of K' (capacity t)) in Hfind.
  (* and after it *)
  unfold ht_find_key. rewrite Et.
  rewrite (bind_ret_eq _ _ _ _ _ (load_table_ok _ _ _ Lt)).
  cbn [capacity set_size].
  rewrite (bind_ret_eq _ _ _ _ _ (hash_key_some K' _ w' Hc)).
  fold (bucket_of K' (capacity t)).
  set (i' := bucket_of K' (capacity t)) in *.
  destruct (i' =? -1) eqn:Ei'. { inversion Hfind; subst. reflexivity. }
  rewrite (bind_ret_eq _ _ _ _ _ (load_table_ok _ _ _ Ht)) in Hfind.
  rewrite (bind_ret_eq _ _ _ _ _ (load_table_ok _ _ _ Lt)).
  cbn [pp_entries set_size]. fold a.
  bind_step Hfind hd' wa Hs.
  apply load_slot_inv in Hs as (-> & l0 & Hl0 & Hir' & Hhd').
  fold a in Hl0. rewrite Ha in Hl0. injection Hl0 as <-.
  bind_step Hfind q wa Hfl. unfold with_fuel in Hfl.
  pose proof (silent_find_loop _ _ _ _ _ _ Hfl) as ->.
  assert (Hfl' : exists x, load_slot a i' w' = Ret x w' /\
                           with_fuel (fun n => find_loop n x K') w' = Ret q w').
  { destruct (decide (i' = i)) as [Eii|Nii].
    - exists p. split.
      + apply (load_slot_ok _ _ _ _ _ La); [rewrite length_insert; exact Hir'|].
        rewrite Eii. apply list_lookup_insert_eq. lia.
      + rewrite Eii in Hhd'. rewrite Hhd in Hhd'. injection Hhd' as <-.
        unfold with_fuel. rewrite Hsize. rewrite find_loop_S.
        assert (Ep : (p =? NULL) = false) by (apply Z.eqb_neq; exact Hp0).
        rewrite Ep.
        rewrite (bind_ret_eq _ _ _ _ _ (load_entry_ok _ _ _ Lp)). cbn [p_key p_next].
        rewrite (bind_ret_eq _ _ _ _ _ (load_chars_ok _ _ _ Lk)).
        assert (Es : (strcmp (cstr K) K' =? 0) = false).
        { apply Z.eqb_neq. intros E0. apply strcmp_zero in E0.
          rewrite cstr_idem in E0. congruence. }
        rewrite Es.
        apply (find_loop_transfer _ _ _ _ _ _ _ _ Hfl Hkept). lia.
    - exists hd'. split.
      + apply (load_slot_ok _ _ _ _ _ La); [rewrite length_insert; exact Hir'|].
        rewrite list_lookup_insert_ne by lia. exact Hhd'.
      + unfold with_fuel. rewrite Hsize.
        apply (find_loop_transfer _ _ _ _ _ _ _ _ Hfl Hkept). lia. }
  destruct Hfl' as (x & Hx1 & Hx2).
  rewrite (bind_ret_eq _ _ _ _ _ Hx1), (bind_ret_eq _ _ _ _ _ Hx2).
  destruct (q =? NULL). { inversion Hfind; subst. reflexivity. }
  bind_step Hfind e wa He. apply load_entry_inv in He as [-> He].
  inversion Hfind; subst.
  destruct Hkept as [Hk1 _].
  rewrite (bind_ret_eq _ _ _ _ _ (load_entry_ok _ _ _ (Hk1 _ _ He))). reflexivity.
Qed.

Lemma find_loop_cstr n K K' : cstr K = cstr K' ->
  forall p w, find_loop n p K w = find_loop n p K' w.
Proof.
  intros E. induction n as [|n IH]; intros p w; [reflexivity|].
  rewrite !find_loop_S. destruct (p =? NULL); [reflexivity|].
  unfold bind. destruct (load_entry p w) as [e w1| |]; try reflexivity.
  destruct (load_chars (p_key e) w1) as [k w2| |]; try reflexivity.
  rewrite (strcmp_same_cstr k K K' E).
  destruct (strcmp k K' =? 0); [reflexivity | apply IH].
Qed.

Lemma bind_ext {A B} (m : M A) (k k' : A -> M B) w :
  (forall a w1, k a w1 = k' a w1) -> bind m k w = bind m k' w.
Proof. intros H. unfold bind. destruct (m w); [apply H | reflexivity | reflexivity]. Qed.

Lemma hash_key_cstr K K' cap :
  cstr K = cstr K' -> hash_key (Some K) cap = hash_key (Some K') cap.
Proof. intros E. unfold hash_key. now rewrite E. Qed.

(** Lookups see the bytes of a key up to its first NUL only. *)
Lemma ht_find_key_cstr p_hashtable K K' w :
  cstr K = cstr K' ->
  ht_find_key p_hashtable (Some K) w = ht_find_key p_hashtable (Some K') w.
Proof.
  intros E. unfold ht_find_key. destruct (p_hashtable =? NULL); [reflexivity|].
  apply bind_ext. intros t w1. rewrite (hash_key_cstr K K' _ E).
  apply bind_ext. intros i w2. destruct (i =? -1); [reflexivity|].
  apply bind_ext. intros t' w3. apply bind_ext. intros hd w4.
  unfold bind, with_fuel. rewrite (find_loop_cstr _ K K' E). reflexivity.
Qed.

Lemma ht_insert_keeps_below_brk p_hashtable K V w w' :
  ht_insert p_hashtable (Some K) V w = Ret true w' ->
  below_brk w -> below_brk w'.
Proof.
  intros H Hb.
  destruct (ht_insert_true_inv _ _ _ _ _ H)
    as (t & l & hd & Et & EV & Ht & Ha & Hc & Ei & Hir & Hhd & Hf & Hp0 & Hk0
        & Hpt & Hkt & Hpa & Hka & Hat & ->).
  cbn zeta in *. pose proof (Hb _ _ Ht) as Hbt.
  intros q b. cbn [heap brk]. rewrite !lookup_insert.
  repeat case_decide; intros Hq; subst; try lia.
  - pose proof (Hb _ _ Ha). lia.
  - pose proof (Hb _ _ Hq). lia.
Qed.

Lemma below_brk_fresh w : below_brk w ->
  heap w !! brk w = None /\ heap w !! (brk w + 1) = None.
Proof.
  intros Hb. split.
  - destruct (heap w !! brk w) as [b|] eqn:E; [|reflexivity].
    pose proof (Hb _ _ E). lia.
  - destruct (heap w !! (brk w + 1)) as [b|] eqn:E; [|reflexivity].
    pose proof (Hb _ _ E). lia.
Qed.

Lemma insert_all_found p_hashtable kvs : forall w w',
  below_brk w ->
  insert_all p_hashtable kvs w = Ret true w' ->
  below_brk w' /\
  (forall K' r w0, ht_find_key p_hashtable (Some K') w = Ret r w0 -> r <> NULL ->
                   ht_find_key p_hashtable (Some K') w' = Ret r w') /\
  (forall k v, (k, v) ∈ kvs -> ht_find_key p_hashtable (Some k) w' = Ret v w').
Proof.
  induction kvs as [|[k v] rest IH]; intros w w' Hb H.
  - inversion H; subst. split; [exact Hb|]. split.
    + intros K' r w0 Hf Hr.
      destruct (ht_find_key_found _ _ _ _ _ Hf Hr) as [-> _]. exact Hf.
    + intros k v Hin. inversion Hin.
  - cbn [insert_all] in H. bind_step H b w1 Hi.
    destruct b; [|inversion H].
    destruct (below_brk_fresh w Hb) as [Hf1 Hf2].
    pose proof (ht_insert_keeps_below_brk _ _ _ _ _ Hi Hb) as Hb1.
    destruct (IH w1 w' Hb1 H) as (Hb' & Hold & Hnew).
    pose proof (ht_insert_then_find _ _ _ _ _ Hi) as Hkv.
    destruct (ht_insert_true_inv _ _ _ _ _ Hi)
      as (t & l & hd & _ & EV & _ & _ & _ & _ & _ & _ & Hnone & _).
    split; [exact Hb'|]. split.
    + intros K' r w0 Hf Hr. apply (Hold K' r w1); [|exact Hr].
      apply (ht_insert_keeps_lookup _ _ _ _ _ _ _ w0 Hi Hf1 Hf2); [|exact Hf].
      intros E. rewrite (ht_find_key_cstr _ _ _ w E) in Hf.
      rewrite Hnone in Hf. inversion Hf. congruence.
    + intros k0 v0 Hin. apply elem_of_cons in Hin as [Heq|Hin].
      * injection Heq as -> ->. apply (Hold k v w1 Hkv).
        apply Z.eqb_neq. exact EV.
      * apply Hnew. exact Hin.
Qed.

Lemma delete_loop_S n q p key :
  delete_loop (S n) q p key
  = if p =? NULL then ret (q, p)
    else e <- load_entry p ;;
         k <- load_chars (p_key e) ;;
         if strcmp k key =? 0 then ret (q, p) else delete_loop n p (p_next e) key.
Proof. reflexivity. Qed.

(** A lookup gives the same in a memory that kept the table's shape,
    its bucket array, the nodes and the keys. *)
Lemma ht_find_key_transfer p_hashtable K w w2 t t2 r w0 :
  (p_hashtable =? NULL) = false ->
  heap w !! p_hashtable = Some (Table t) -> capacity t <> 0 ->
  heap w2 !! p_hashtable = Some (Table t2) ->
  capacity t2 = capacity t -> pp_entries t2 = pp_entries t ->
  heap w2 !! pp_entries t = heap w !! pp_entries t ->
  nodes_kept (heap w) (heap w2) ->
  (base.size (heap w) <= base.size (heap w2))%nat ->
  ht_find_key p_hashtable (Some K) w = Ret r w0 ->
  ht_find_key p_hashtable (Some K) w2 = Ret r w2.
Proof.
  intros Et Ht Hc Ht2 Hcap Harr Hslots Hkept Hsize Hfind.
  unfold ht_find_key in *. rewrite Et in *.
  rewrite (bind_ret_eq _ _ _ _ _ (load_table_ok _ _ _ Ht)) in Hfind.
  rewrite (bind_ret_eq _ _ _ _ _ (hash_key_some K _ w Hc)) in Hfind.
  rewrite (bind_ret_eq _ _ _ _ _ (load_table_ok _ _ _ Ht2)).
  rewrite Hcap.
  rewrite (bind_ret_eq _ _ _ _ _ (hash_key_some K _ w2 Hc)).
  destruct (_ =? -1). { inversion Hfind; subst. reflexivity. }
  rewrite (bind_ret_eq _ _ _ _ _ (load_table_ok _ _ _ Ht)) in Hfind.
  rewrite (bind_ret_eq _ _ _ _ _ (load_table_ok _ _ _ Ht2)).
  rewrite Harr.
  bind_step Hfind hd0 wa Hs.
  apply load_slot_inv in Hs as (-> & l & Hl & Hir & Hhd).
  rewrite <- Hslots in Hl.
  rewrite (bind_ret_eq _ _ _ _ _ (load_slot_ok _ _ _ _ _ Hl Hir Hhd)).
  bind_step Hfind q wa Hfl. unfold with_fuel in Hfl.
  pose proof (silent_find_loop _ _ _ _ _ _ Hfl) as ->.
  assert (Hfl2 : with_fuel (fun n => find_loop n hd0 K) w2 = Ret q w2).
  { unfold with_fuel. apply (find_loop_transfer _ _ _ _ _ _ _ _ Hfl Hkept). lia. }
  rewrite (bind_ret_eq _ _ _ _ _ Hfl2).
  destruct (q =? NULL). { inversion Hfind; subst. reflexivity. }
  bind_step Hfind e wa He. apply load_entry_inv in He as [-> He].
  inversion Hfind; subst. destruct Hkept as [Hk1 _].
  rewrite (bind_ret_eq _ _ _ _ _ (load_entry_ok _ _ _ (Hk1 _ _ He))). reflexivity.
Qed.

Lemma ht_insert_then_delete p_hashtable K V w w1 :
  ht_insert p_hashtable (Some K) V w = Ret true w1 ->
  heap w !! brk w = None -> heap w !! (brk w + 1) = None ->
  exists t,
    heap w !! p_hashtable = Some (Table t) /\
    ht_delete p_hashtable (Some K) (Some recording_del) w1
    = Ret true
        (mk_world
           (<[p_hashtable := Table (set_size (to_uint64 (size t + 1)) t)]>
              (<[brk w + 1 := Chars (cstr K)]> (heap w)))
           (brk w1) (oracle w1) (trace w ++ [Call_del V])).
Proof.
  intros H Hfp Hfk.
  destruct (ht_insert_true_inv _ _ _ _ _ H)
    as (t & l & hd & Et & EV & Ht & Ha & Hc & Ei & Hir & Hhd & Hf & Hp0 & Hk0
        & Hpt & Hkt & Hpa & Hka & Hat & ->).
  cbn zeta in *. exists t. split; [exact Ht|].
  set (a := pp_entries t) in *. set (i := bucket_of K (capacity t)) in *.
  assert (Ep : (brk w =? NULL) = false) by (apply Z.eqb_neq; exact Hp0).
  unfold ht_delete. rewrite Et.
  run_step load_table_ok. cbn [capacity set_size].
  rewrite (bind_ret_eq _ _ _ _ _ (hash_key_some K _ _ Hc)).
  fold (bucket_of K (capacity t)). fold i. rewrite Ei.
  run_step load_table_ok. cbn [pp_entries set_size]. fold a.
  erewrite bind_ret_eq.
  2:{ eapply load_slot_ok; [look; reflexivity | rewrite length_insert; exact Hir |].
      apply list_lookup_insert_eq. lia. }
  erewrite bind_ret_eq.
  2:{ unfold with_fuel. rewrite delete_loop_S, Ep.
      run_step load_entry_ok. cbn [p_key].
      run_step load_chars_ok. rewrite strcmp_cstr. reflexivity. }
  cbn [fst snd]. rewrite Ep. change (NULL =? NULL) with true. cbv iota.
  erewrite bind_ret_eq.
  2:{ run_step load_entry_ok.
      run_step load_table_ok. cbn [pp_entries set_size p_next]. fold a.
      erewrite bind_ret_eq.
      2:{ eapply store_slot_ok; [look; reflexivity | rewrite length_insert; exact Hir]. }
      reflexivity. }
  run_step load_entry_ok. cbn [p_data call].
  unfold recording_del. unfold bind at 1. unfold emit at 1.
  unfold bind at 1. unfold free at 1. rewrite Ep.
  cbn [heap brk oracle trace set_heap].
  rewrite lookup_insert_ne by congruence.
  rewrite lookup_insert_ne by congruence.
  rewrite lookup_insert_ne by congruence.
  rewrite lookup_insert_eq.
  unfold ret, set_heap. cbn [heap brk oracle trace].
  f_equal. f_equal.
  apply map_eq. intros q. rewrite lookup_delete. rewrite !lookup_insert.
  rewrite list_insert_insert_eq.
  rewrite (list_insert_id l (Z.to_nat i) hd Hhd).
  repeat case_decide; subst; first [reflexivity | lia | congruence].
Qed.


(** ** Failing calls *)

Lemma ht_insert_false_keeps_heap p_hashtable p_key V w w' :
  ht_insert p_hashtable p_key V w = Ret false w' ->
  0 < brk w -> heap w !! brk w = None ->
  heap w' = heap w.
Proof.
  intros H Hb Hfresh. unfold ht_insert in H. destruct p_key as [key|].
  2:{ bind_step H u wa He. inversion H; subst. exact (emit_heap _ _ _ _ He). }
  destruct ((p_hashtable =? NULL) || (V =? NULL)).
  { bind_step H u wa He. inversion H; subst. exact (emit_heap _ _ _ _ He). }
  bind_step H t wa Hl. apply load_table_inv in Hl as [-> Hl].
  bind_step H i wa Hh.
  apply (observer_keeps _ _ _ _ (observer_hash_key _ _)) in Hh as [Hh1 Hh2].
  destruct (i =? -1). { inversion H; subst. exact Hh1. }
  bind_step H found wb Hf.
  apply (observer_keeps _ _ _ _ (observer_ht_find_key _ _)) in Hf as [Hf1 Hf2].
  destruct (negb (found =? NULL)).
  { bind_step H u wc He. inversion H; subst. rewrite (emit_heap _ _ _ _ He). congruence. }
  bind_step H p wc Hc1.
  assert (Hwb : heap wb = heap w /\ brk wb = brk w) by (split; congruence).
  destruct Hwb as [Hwb1 Hwb2].
  destruct (p =? NULL) eqn:Ep.
  { bind_step H u wd He. inversion H; subst. rewrite (emit_heap _ _ _ _ He).
    apply calloc_world in Hc1 as [(_ & Hc & _)|(Hc & _)]; [congruence|].
    apply Z.eqb_eq in Ep. unfold NULL in *. lia. }
  apply calloc_world in Hc1 as [(Hc & _)|(Hp & Hc1 & Hc2)].
  { apply Z.eqb_neq in Ep. contradiction. }
  bind_step H k wd Hc3.
  bind_step H u1 we Hu. apply update_entry_inv in Hu as (e1 & He1 & Hu).
  destruct (k =? NULL) eqn:Ek.
  2:{ failed_exit H. }
  bind_step H u2 wf Hpe. apply emit_heap in Hpe.
  bind_step H u3 wg Hfr.
  apply free_inv in Hfr as (blk & _ & Hfr); [|apply Z.eqb_neq; exact Ep].
  inversion H; subst wg. clear H.
  apply calloc_world in Hc3 as [(_ & Hc3 & _)|(Hk & _ & _)].
  2:{ apply Z.eqb_eq in Ek. unfold NULL in *. lia. }
  rewrite Hfr, Hpe, Hu, Hc3, Hc1, Hwb1, Hp, Hwb2.
  rewrite delete_insert_eq, delete_insert_eq. apply delete_id. exact Hfresh.
Qed.

(** The part of [ht_delete] before the destructor is called does not
    depend on the destructor; a call that returns false ended there. *)
Lemma ht_delete_false p_hashtable p_key d w w' :
  ht_delete p_hashtable p_key d w = Ret false w' ->
  heap w' = heap w /\ brk w' = brk w /\ oracle w' = oracle w /\
  forall d', ht_delete p_hashtable p_key d' w = Ret false w'.
Proof.
  intros H. unfold ht_delete in *. destruct p_key as [key|].
  2:{ bind_step H u wa He. inversion H; subst. inversion He; subst. simpl. auto. }
  destruct (p_hashtable =? NULL).
  { bind_step H u wa He. inversion H; subst. inversion He; subst. simpl. auto. }
  bind_step H t wa Hl.
  pose proof (silent_load_table _ _ _ _ Hl) as ->.
  bind_step H i wa Hh.
  pose proof (observer_heap _ _ _ _ (observer_hash_key _ _) Hh) as Hk.
  destruct (i =? -1) eqn:Ei.
  { inversion H; subst. split; [tauto|]. split; [tauto|]. split; [tauto|].
    intros d'. rewrite (bind_ret_eq _ _ _ _ _ Hl), (bind_ret_eq _ _ _ _ _ Hh), Ei. reflexivity. }
  bind_step H t1 wb Hl1. pose proof (silent_load_table _ _ _ _ Hl1) as ->.
  bind_step H hd0 wb Hs. pose proof (silent_load_slot _ _ _ _ _ Hs) as ->.
  bind_step H r wb Hdl.
  assert (wb = wa) as ->.
  { revert Hdl. apply silent_with_fuel. intros n. apply silent_delete_loop. }
  destruct (snd r =? NULL) eqn:Ep.
  - inversion H; subst. split; [tauto|]. split; [tauto|]. split; [tauto|].
    intros d'. rewrite (bind_ret_eq _ _ _ _ _ Hl), (bind_ret_eq _ _ _ _ _ Hh), Ei.
    rewrite (bind_ret_eq _ _ _ _ _ Hl1), (bind_ret_eq _ _ _ _ _ Hs).
    rewrite (bind_ret_eq _ _ _ _ _ Hdl), Ep. reflexivity.
  - failed_exit H.
Qed.

(** X2: when the capacity is 0 or the allocation of the table is
    refused, [ht_create] returns the null pointer and the memory and
    the allocator's next address are what they were. *)
Theorem ht_create_fails_cleanly (capacity : Z) (w : world) (o : list bool) :
  capacity = 0 \/ oracle w = false :: o ->
  exists w', ht_create capacity w = Ret NULL w' /\
             heap w' = heap w /\ brk w' = brk w.
Proof.
  intros [->|Ho].
  - eexists. split; [reflexivity|]. split; reflexivity.
  - unfold ht_create. destruct (capacity =? 0).
    + eexists. split; [reflexivity|]. split; reflexivity.
    + eexists. unfold bind at 1. unfold calloc at 1. rewrite Ho.
      simpl. split; [reflexivity|]. split; reflexivity.
Qed.

(** ** Tables with no entry and with one entry *)

Lemma ht_delete_null_bucket p_hashtable K d w t l :
  heap w !! p_hashtable = Some (Table t) ->
  heap w !! pp_entries t = Some (Slots l) ->
  Z.of_nat (length l) = capacity t ->
  1 <= capacity t <= two63 ->
  p_hashtable <> NULL ->
  l !! Z.to_nat (bucket_of K (capacity t)) = Some NULL ->
  ht_delete p_hashtable (Some K) d w = Ret false w.
Proof.
  intros Ht Ha Hlen Hcap Hp Hl.
  pose proof (hash_index_in_range K (capacity t) Hcap) as Hi.
  fold (bucket_of K (capacity t)) in Hi.
  set (i := bucket_of K (capacity t)) in *.
  unfold ht_delete.
  assert (Et : (p_hashtable =? NULL) = false) by (apply Z.eqb_neq; exact Hp).
  rewrite Et.
  rewrite (bind_ret_eq _ _ _ _ _ (load_table_ok _ _ _ Ht)).
  rewrite (bind_ret_eq _ _ _ _ _ (hash_key_some K (capacity t) w ltac:(lia))).
  fold (bucket_of K (capacity t)). fold i.
  assert (Ei : (i =? -1) = false) by (apply Z.eqb_neq; lia). rewrite Ei.
  rewrite (bind_ret_eq _ _ _ _ _ (load_table_ok _ _ _ Ht)).
  erewrite bind_ret_eq; [| eapply load_slot_ok; [exact Ha | lia | exact Hl]].
  reflexivity.
Qed.

Lemma to_uint64_small z : 0 <= z < two64 -> to_uint64 z = z.
Proof. intros H. unfold to_uint64. apply Z.mod_small. exact H. Qed.

(** Over buckets that are all empty the loop of [ht_destroy] does
    nothing. *)
Lemma destroy_for_empty p_hashtable d w t l : 
  heap w !! p_hashtable = Some (Table t) ->
  heap w !! pp_entries t = Some (Slots l) ->
  Z.of_nat (length l) = capacity t ->
  capacity t < two64 ->
  (forall j, (j < length l)%nat -> l !! j = Some NULL) ->
  forall n idx, 0 <= idx <= capacity t ->
    (Z.to_nat (capacity t - idx) < n)%nat ->
    destroy_for n p_hashtable d idx w = Ret tt w.
Proof.
  intros Ht Ha Hlen Hcap Hnull n.
  induction n as [|n IH]; intros idx Hidx Hn; [lia|].
  cbn [destroy_for].
  rewrite (bind_ret_eq _ _ _ _ _ (load_table_ok _ _ _ Ht)).
  destruct (idx <? capacity t) eqn:E; [|reflexivity].
  apply Z.ltb_lt in E.
  erewrite bind_ret_eq.
  2:{ eapply load_slot_ok; [exact Ha | lia | apply Hnull; lia]. }
  change (negb (NULL =? NULL)) with false. cbv iota.
  unfold bind at 1. unfold ret at 1.
  rewrite to_uint64_small by lia.
  apply IH; lia.
Qed.

Lemma print_for_empty p_hashtable w t l : 
  heap w !! p_hashtable = Some (Table t) ->
  heap w !! pp_entries t = Some (Slots l) ->
  Z.of_nat (length l) = capacity t ->
  capacity t < two64 ->
  (forall j, (j < length l)%nat -> l !! j = Some NULL) ->
  forall n idx, 0 <= idx <= capacity t ->
    (Z.to_nat (capacity t - idx) < n)%nat ->
    print_for n p_hashtable idx w = Ret [] w.
Proof.
  intros Ht Ha Hlen Hcap Hnull n.
  induction n as [|n IH]; intros idx Hidx Hn; [lia|].
  cbn [print_for].
  rewrite (bind_ret_eq _ _ _ _ _ (load_table_ok _ _ _ Ht)).
  destruct (idx <? capacity t) eqn:E; [|reflexivity].
  apply Z.ltb_lt in E.
  erewrite bind_ret_eq.
  2:{ eapply load_slot_ok; [exact Ha | lia | apply Hnull; lia]. }
  change (negb (NULL =? NULL)) with false. cbv iota.
  unfold bind at 1. unfold ret at 1.
  rewrite to_uint64_small by lia.
  rewrite (bind_ret_eq _ _ _ _ _ (IH (idx + 1) ltac:(lia) ltac:(lia))). reflexivity.
Qed.

Lemma observer_print_while fuel : forall p, observer (print_while fuel p).
Proof.
  induction fuel as [|n IH]; intros p; simpl; [apply observer_diverge|].
  observe; apply IH.
Qed.

Lemma observer_print_for fuel : forall t idx, observer (print_for fuel t idx).
Proof.
  induction fuel as [|n IH]; intros t idx; simpl; [apply observer_diverge|].
  observe; first [apply observer_print_while | apply IH].
Qed.

Lemma observer_ht_print p_hashtable : observer (ht_print p_hashtable).
Proof.
  unfold ht_print, fprintf_stderr.
  observe; first [apply observer_print_while | apply observer_print_for].
Qed.

(** Creating a table and destroying it at once. *)
Lemma ht_create_then_destroy (N : Z) (d : ptr -> M unit) (w : world) :
  1 <= N -> N * sizeof_entry_t < two64 -> oracle w = [] -> 0 < brk w ->
  heap w !! brk w = None -> heap w !! (brk w + 1) = None ->
  exists t w1,
    ht_create N w = Ret t w1 /\
    ht_destroy t (Some d) w1
      = Ret tt (mk_world (heap w) (brk w + 2) [] (trace w)).
Proof.
  intros HN Hsz Ho Hb Hf1 Hf2.
  assert (Hb' : brk w <> NULL) by (unfold NULL; lia).
  pose proof (capacity_fits N HN Hsz) as Hcap.
  eexists _, _. split; [apply (ht_create_ok N w HN Hsz Ho Hb')|].
  set (w1 := mk_world _ _ _ _).
  assert (Ht : heap w1 !! brk w = Some (Table (mk_hashtable (brk w + 1) 0 N))).
  { subst w1. look. reflexivity. }
  assert (Ha : heap w1 !! (brk w + 1) = Some (Slots (replicate (Z.to_nat N) NULL))).
  { subst w1. look. reflexivity. }
  unfold ht_destroy.
  assert (Et : (brk w =? NULL) = false) by (apply Z.eqb_neq; exact Hb').
  rewrite Et. cbn [is_null_fn orb].
  rewrite (bind_ret_eq _ _ _ _ _ (load_table_ok _ _ _ Ht)). cbn [capacity].
  erewrite bind_ret_eq.
  2:{ apply (destroy_for_empty _ _ _ _ _ Ht Ha).
      - rewrite length_replicate. cbn [capacity]. lia.
      - cbn [capacity]. unfold two63, two64 in *. lia.
      - intros j Hj. rewrite length_replicate in Hj. apply lookup_replicate_2. exact Hj.
      - cbn [capacity]. lia.
      - cbn [capacity]. lia. }
  rewrite (bind_ret_eq _ _ _ _ _ (load_table_ok _ _ _ Ht)). cbn [pp_entries].
  unfold bind at 1. unfold free at 1.
  assert (Ea : (brk w + 1 =? NULL) = false) by (apply Z.eqb_neq; unfold NULL; lia).
  rewrite Ea, Ha.
  unfold free. rewrite Et. cbn [heap set_heap].
  rewrite lookup_delete_ne by lia. rewrite Ht.
  subst w1. unfold set_heap. cbn [heap brk oracle trace].
  f_equal. f_equal.
  apply map_eq. intros q. rewrite !lookup_delete, !lookup_insert.
  repeat case_decide; subst; first [reflexivity | lia | congruence].
Qed.

Section one_table.
Variables (p_hashtable : ptr) (t : hashtable_t) (l : list ptr).
Hypothesis Hlen : Z.of_nat (length l) = capacity t.
Hypothesis Hcap : capacity t < two64.

(** Empty buckets are passed without effect. *)
Lemma destroy_for_skip d w (k : nat) : forall n idx,
  table_at p_hashtable t l w -> 0 <= idx -> idx + Z.of_nat k <= capacity t ->
  (forall j, idx <= j < idx + Z.of_nat k -> l !! Z.to_nat j = Some NULL) ->
  destroy_for (k + n) p_hashtable d idx w
  = destroy_for n p_hashtable d (idx + Z.of_nat k) w.
Proof.
  induction k as [|k IH]; intros n idx [Ht Ha] H0 Hk Hnull.
  - simpl. now rewrite Z.add_0_r.
  - cbn [Nat.add destroy_for].
    rewrite (bind_ret_eq _ _ _ _ _ (load_table_ok _ _ _ Ht)).
    destruct (idx <? capacity t) eqn:E; [|apply Z.ltb_ge in E; lia].
    erewrite bind_ret_eq.
    2:{ eapply load_slot_ok; [exact Ha | lia | apply Hnull; lia]. }
    change (negb (NULL =? NULL)) with false. cbv iota.
    unfold bind at 1. unfold ret at 1.
    rewrite to_uint64_small by lia.
    rewrite IH; [| split; assumption | lia | lia | intros j Hj; apply Hnull; lia].
    f_equal. lia.
Qed.

Lemma destroy_for_end d w n :
  table_at p_hashtable t l w -> destroy_for (S n) p_hashtable d (capacity t) w = Ret tt w.
Proof.
  intros [Ht Ha]. cbn [destroy_for].
  rewrite (bind_ret_eq _ _ _ _ _ (load_table_ok _ _ _ Ht)).
  rewrite Z.ltb_irrefl. reflexivity.
Qed.

Lemma print_for_skip w (k : nat) : forall n idx,
  table_at p_hashtable t l w -> 0 <= idx -> idx + Z.of_nat k <= capacity t ->
  (forall j, idx <= j < idx + Z.of_nat k -> l !! Z.to_nat j = Some NULL) ->
  print_for (k + n) p_hashtable idx w
  = print_for n p_hashtable (idx + Z.of_nat k) w.
Proof.
  induction k as [|k IH]; intros n idx [Ht Ha] H0 Hk Hnull.
  - simpl. now rewrite Z.add_0_r.
  - cbn [Nat.add print_for].
    rewrite (bind_ret_eq _ _ _ _ _ (load_table_ok _ _ _ Ht)).
    destruct (idx <? capacity t) eqn:E; [|apply Z.ltb_ge in E; lia].
    erewrite bind_ret_eq.
    2:{ eapply load_slot_ok; [exact Ha | lia | apply Hnull; lia]. }
    change (negb (NULL =? NULL)) with false. cbv iota.
    unfold bind at 1. unfold ret at 1.
    rewrite to_uint64_small by lia.
    unfold bind at 1.
    rewrite IH; [| split; assumption | lia | lia | intros j Hj; apply Hnull; lia].
    replace (idx + 1 + Z.of_nat k) with (idx + Z.of_nat (S k)) by lia.
    destruct (print_for n p_hashtable _ w); reflexivity.
Qed.

Lemma print_for_end w n :
  table_at p_hashtable t l w -> print_for (S n) p_hashtable (capacity t) w = Ret [] w.
Proof.
  intros [Ht Ha]. cbn [print_for].
  rewrite (bind_ret_eq _ _ _ _ _ (load_table_ok _ _ _ Ht)).
  rewrite Z.ltb_irrefl. reflexivity.
Qed.
End one_table.

(** The memory right after a table was created and one key inserted. *)
Lemma ht_create_insert_world (N : Z) (K : string) (V : ptr) (w : world) :
  1 <= N -> N * sizeof_entry_t < two64 -> oracle w = [] -> 0 < brk w ->
  V <> NULL -> Z.of_nat (strlen K) + 1 < two64 ->
  let b := brk w in
  exists w1,
    ht_create N w = Ret b w1 /\
    ht_insert b (Some K) V w1
    = Ret true
        (mk_world
           (<[b := Table (mk_hashtable (b + 1) 1 N)]>
              (<[b + 1 := Slots (<[Z.to_nat (bucket_of K N) := b + 2]>
                                   (replicate (Z.to_nat N) NULL))]>
                 (<[b + 2 := Entry (mk_entry NULL (b + 3) V)]>
                    (<[b + 3 := Chars (cstr K)]> (heap w)))))
           (b + 4) [] (trace w)).
Proof.
  intros HN Hsz Ho Hb HV HK b.
  pose proof (capacity_fits N HN Hsz) as Hcap.
  assert (Hb' : brk w <> NULL) by (unfold NULL; lia).
  pose proof (ht_create_ok N w HN Hsz Ho Hb') as Hc.
  set (w1 := mk_world _ _ _ _) in Hc. exists w1. split; [exact Hc|].
  assert (Ht : heap w1 !! b = Some (Table (mk_hashtable (b + 1) 0 N))).
  { subst w1 b. look. reflexivity. }
  assert (Ha : heap w1 !! (b + 1) = Some (Slots (replicate (Z.to_nat N) NULL))).
  { subst w1 b. look. reflexivity. }
  assert (Hlen : Z.of_nat (length (replicate (Z.to_nat N) NULL)) = N).
  { rewrite length_replicate. lia. }
  pose proof (hash_index_in_range K N Hcap) as Hi.
  fold (bucket_of K N) in Hi.
  assert (Hf : ht_find_key b (Some K) w1 = Ret NULL w1).
  { eapply ht_find_key_null_bucket; [exact Ht | exact Ha | exact Hlen | exact Hcap
                                    | exact Hb' |].
    apply lookup_replicate_2. cbn [capacity].
    fold (bucket_of K N). lia. }
  destruct (ht_insert_absent_key b K V w1 _ _ Ht Ha Hlen Hcap Hf)
    as (w2 & Hins & _);
    try (subst w1 b; cbn [brk oracle pp_entries]; first [reflexivity | lia | assumption]).
  rewrite Hins. f_equal.
  destruct (ht_insert_true_inv _ _ _ _ _ Hins)
    as (t0 & l0 & hd & _ & _ & Ht0 & Ha0 & _ & _ & Hir & Hhd & _ & _ & _
        & _ & _ & _ & _ & _ & ->).
  cbn zeta in *. rewrite Ht in Ht0. injection Ht0 as <-.
  cbn [pp_entries capacity size] in *.
  rewrite Ha in Ha0. injection Ha0 as <-.
  rewrite lookup_replicate in Hhd. destruct Hhd as [-> _].
  subst w1. cbn [heap brk oracle trace]. fold b.
  f_equal; [|lia].
  change (set_size (to_uint64 (0 + 1)) (mk_hashtable (b + 1) 0 N))
    with (mk_hashtable (b + 1) 1 N).
  apply map_eq. intros q. rewrite !lookup_insert.
  replace (b + 2 + 1) with (b + 3) by lia.
  repeat case_decide; subst; first [reflexivity | lia | congruence].
Qed.

Lemma destroy_for_S n p_hashtable d idx :
  destroy_for (S n) p_hashtable d idx
  = (t <- load_table p_hashtable ;;
     if idx <? capacity t then
       p_temp_entry <- load_slot (pp_entries t) idx ;;
       (if negb (p_temp_entry =? NULL) then
          r <- with_fuel (fun m => destroy_while m d p_temp_entry p_temp_entry) ;;
          let p_temp_entry := fst r in
          let p_bucket := snd r in
          b <- load_entry p_bucket ;;
          call d (p_data b) ;;;
          e <- load_entry p_temp_entry ;;
          free (p_key e) ;;;
          free p_temp_entry
        else ret tt) ;;;
       destroy_for n p_hashtable d (to_uint64 (idx + 1))
     else ret tt).
Proof. reflexivity. Qed.

Lemma print_for_S n p_hashtable idx :
  print_for (S n) p_hashtable idx
  = (t <- load_table p_hashtable ;;
     if idx <? capacity t then
       head <- load_slot (pp_entries t) idx ;;
       out <- (if negb (head =? NULL)
               then
                 keys <- with_fuel (fun m => print_while m head) ;;
                 ret (Printf_index idx :: keys)
               else ret []) ;;
       rest <- print_for n p_hashtable (to_uint64 (idx + 1)) ;;
       ret (out ++ rest)
     else ret []).
Proof. reflexivity. Qed.

Section one_entry.
Variables (p_hashtable : ptr) (t : hashtable_t) (l : list ptr).
Variables (i p k V : Z) (s : string) (w : world).
Hypothesis Hlen : Z.of_nat (length l) = capacity t.
Hypothesis Hcap : capacity t < two64.
Hypothesis Ht : heap w !! p_hashtable = Some (Table t).
Hypothesis Ha : heap w !! pp_entries t = Some (Slots l).
Hypothesis Hp : heap w !! p = Some (Entry (mk_entry NULL k V)).
Hypothesis Hk : heap w !! k = Some (Chars s).
Hypothesis Hi : 0 <= i < capacity t.
Hypothesis Hli : l !! Z.to_nat i = Some p.
Hypothesis Hnull : forall j, 0 <= j < capacity t -> j <> i -> l !! Z.to_nat j = Some NULL.
Hypothesis Hnz : p_hashtable <> NULL /\ p <> NULL /\ k <> NULL.
Hypothesis Hpk : p <> k.
Hypothesis Haz : pp_entries t <> NULL.

Lemma ht_print_one_entry :
  ht_print p_hashtable w
  = Ret [Puts "Beginning of table."; Printf_index i; Printf_key s;
         Puts "End of table."] w.
Proof.
  destruct Hnz as (Hz1 & Hz2 & Hz3).
  unfold ht_print.
  assert (Et : (p_hashtable =? NULL) = false) by (apply Z.eqb_neq; exact Hz1).
  assert (Ep : (p =? NULL) = false) by (apply Z.eqb_neq; exact Hz2).
  rewrite Et.
  rewrite (bind_ret_eq _ _ _ _ _ (load_table_ok _ _ _ Ht)).
  assert (Hbody : print_for (S (Z.to_nat (capacity t))) p_hashtable 0 w
                  = Ret [Printf_index i; Printf_key s] w).
  { replace (S (Z.to_nat (capacity t)))
      with (Z.to_nat i + S (Z.to_nat (capacity t - 1 - i) + 1))%nat by lia.
    rewrite (print_for_skip p_hashtable t l Hlen Hcap w (Z.to_nat i));
      [| split; assumption | lia | lia | intros j Hj; apply Hnull; lia].
    replace (0 + Z.of_nat (Z.to_nat i)) with i by lia.
    rewrite print_for_S.
    rewrite (bind_ret_eq _ _ _ _ _ (load_table_ok _ _ _ Ht)).
    destruct (i <? capacity t) eqn:E; [|apply Z.ltb_ge in E; lia].
    erewrite bind_ret_eq; [| eapply load_slot_ok; [exact Ha | lia | exact Hli]].
    rewrite Ep. cbn [negb].
    erewrite bind_ret_eq.
    2:{ erewrite bind_ret_eq; [reflexivity|].
        unfold with_fuel.
        assert (Hsz : exists m, base.size (heap w) = S m).
        { destruct (base.size (heap w)) eqn:Es; [|eauto].
          apply map_size_empty_inv in Es. rewrite Es in Ht.
          rewrite lookup_empty in Ht. discriminate Ht. }
        destruct Hsz as [m ->].
        cbn [print_while]. rewrite Ep.
        rewrite (bind_ret_eq _ _ _ _ _ (load_entry_ok _ _ _ Hp)). cbn [p_key].
        rewrite (bind_ret_eq _ _ _ _ _ (load_chars_ok _ _ _ Hk)).
        rewrite (bind_ret_eq _ _ _ _ _ (load_entry_ok _ _ _ Hp)). cbn [p_next].
        reflexivity. }
    rewrite to_uint64_small by lia.
    assert (Htail : print_for (Z.to_nat (capacity t - 1 - i) + 1) p_hashtable (i + 1) w
                    = Ret [] w).
    { rewrite (print_for_skip p_hashtable t l Hlen Hcap w (Z.to_nat (capacity t - 1 - i)));
        [| split; assumption | lia | lia | intros j Hj; apply Hnull; lia].
      replace (i + 1 + Z.of_nat (Z.to_nat (capacity t - 1 - i))) with (capacity t) by lia.
      apply (print_for_end p_hashtable t l w 0 (conj Ht Ha)). }
    rewrite (bind_ret_eq _ _ _ _ _ Htail). reflexivity. }
  rewrite (bind_ret_eq _ _ _ _ _ Hbody). reflexivity.
Qed.

Lemma ht_destroy_one_entry :
  ht_destroy p_hashtable (Some recording_del) w
  = Ret tt (mk_world
              (delete p_hashtable
                 (delete (pp_entries t) (delete p (delete k (heap w)))))
              (brk w) (oracle w) (trace w ++ [Call_del V])).
Proof.
  destruct Hnz as (Hz1 & Hz2 & Hz3).
  assert (Et : (p_hashtable =? NULL) = false) by (apply Z.eqb_neq; exact Hz1).
  assert (Ep : (p =? NULL) = false) by (apply Z.eqb_neq; exact Hz2).
  assert (Ek : (k =? NULL) = false) by (apply Z.eqb_neq; exact Hz3).
  assert (Hpt : p <> p_hashtable) by (intros E; rewrite E, Ht in Hp; discriminate Hp).
  assert (Hkt : k <> p_hashtable) by (intros E; rewrite E, Ht in Hk; discriminate Hk).
  assert (Hpa : p <> pp_entries t) by (intros E; rewrite E, Ha in Hp; discriminate Hp).
  assert (Hka : k <> pp_entries t) by (intros E; rewrite E, Ha in Hk; discriminate Hk).
  assert (Hat : pp_entries t <> p_hashtable)
    by (intros E; rewrite E, Ht in Ha; discriminate Ha).
  assert (Ea : (pp_entries t =? NULL) = false) by (apply Z.eqb_neq; exact Haz).
  (* the state in which the rest of the buckets is walked *)
  set (w3 := mk_world (delete p (delete k (heap w))) (brk w) (oracle w)
                      (trace w ++ [Call_del V])).
  assert (Ht3 : heap w3 !! p_hashtable = Some (Table t)).
  { subst w3. cbn [heap]. rewrite !lookup_delete_ne by congruence. exact Ht. }
  assert (Ha3 : heap w3 !! pp_entries t = Some (Slots l)).
  { subst w3. cbn [heap]. rewrite !lookup_delete_ne by congruence. exact Ha. }
  unfold ht_destroy. rewrite Et. cbn [is_null_fn orb].
  rewrite (bind_ret_eq _ _ _ _ _ (load_table_ok _ _ _ Ht)).
  assert (Hloop : destroy_for (S (Z.to_nat (capacity t))) p_hashtable
                    (Some recording_del) 0 w = Ret tt w3).
  { replace (S (Z.to_nat (capacity t)))
      with (Z.to_nat i + S (Z.to_nat (capacity t - 1 - i) + 1))%nat by lia.
    rewrite (destroy_for_skip p_hashtable t l Hlen Hcap _ w (Z.to_nat i));
      [| split; assumption | lia | lia | intros j Hj; apply Hnull; lia].
    replace (0 + Z.of_nat (Z.to_nat i)) with i by lia.
    rewrite destroy_for_S.
    rewrite (bind_ret_eq _ _ _ _ _ (load_table_ok _ _ _ Ht)).
    destruct (i <? capacity t) eqn:E; [|apply Z.ltb_ge in E; lia].
    erewrite bind_ret_eq; [| eapply load_slot_ok; [exact Ha | lia | exact Hli]].
    rewrite Ep. cbn [negb].
    erewrite bind_ret_eq.
    2:{ erewrite bind_ret_eq.
        2:{ unfold with_fuel. cbn [destroy_while].
            rewrite (bind_ret_eq _ _ _ _ _ (load_entry_ok _ _ _ Hp)). cbn [p_next].
            change (negb (NULL =? NULL)) with false. cbv iota. reflexivity. }
        cbn [fst snd].
        rewrite (bind_ret_eq _ _ _ _ _ (load_entry_ok _ _ _ Hp)). cbn [p_data call].
        unfold recording_del. unfold bind at 1. unfold emit at 1.
        erewrite bind_ret_eq; [| apply load_entry_ok; cbn [heap]; exact Hp].
        cbn [p_key].
        unfold bind at 1. unfold free at 1. rewrite Ek. cbn [heap]. rewrite Hk.
        unfold free. rewrite Ep. cbn [heap set_heap].
        rewrite lookup_delete_ne by congruence. rewrite Hp.
        unfold set_heap. cbn [heap brk oracle trace]. reflexivity. }
    fold w3.
    rewrite to_uint64_small by lia.
    rewrite (destroy_for_skip p_hashtable t l Hlen Hcap _ w3
               (Z.to_nat (capacity t - 1 - i)));
      [| split; assumption | lia | lia | intros j Hj; apply Hnull; lia].
    replace (i + 1 + Z.of_nat (Z.to_nat (capacity t - 1 - i))) with (capacity t) by lia.
    apply (destroy_for_end p_hashtable t l _ w3 0 (conj Ht3 Ha3)). }
  rewrite (bind_ret_eq _ _ _ _ _ Hloop).
  rewrite (bind_ret_eq _ _ _ _ _ (load_table_ok _ _ _ Ht3)).
  unfold bind at 1. unfold free at 1. rewrite Ea, Ha3.
  unfold free. rewrite Et. cbn [heap set_heap].
  rewrite lookup_delete_ne by congruence. rewrite Ht3.
  subst w3. unfold set_heap. cbn [heap brk oracle trace]. reflexivity.
Qed.
End one_entry.

(** The one-entry table that creation and one insertion leave. *)
Lemma one_entry_table_facts (N : Z) (K : string) (V : ptr) (h : gmap Z block) (b : Z) :
  1 <= N <= two63 -> 0 < b ->
  let i := bucket_of K N in
  let l := <[Z.to_nat i := b + 2]> (replicate (Z.to_nat N) NULL) in
  let t := mk_hashtable (b + 1) 1 N in
  let h2 := <[b := Table t]>
              (<[b + 1 := Slots l]>
                 (<[b + 2 := Entry (mk_entry NULL (b + 3) V)]>
                    (<[b + 3 := Chars (cstr K)]> h))) in
  Z.of_nat (length l) = capacity t /\ capacity t < two64 /\
  h2 !! b = Some (Table t) /\ h2 !! pp_entries t = Some (Slots l) /\
  h2 !! (b + 2) = Some (Entry (mk_entry NULL (b + 3) V)) /\
  h2 !! (b + 3) = Some (Chars (cstr K)) /\
  0 <= i < capacity t /\ l !! Z.to_nat i = Some (b + 2) /\
  (forall j, 0 <= j < capacity t -> j <> i -> l !! Z.to_nat j = Some NULL).
Proof.
  intros Hcap Hb i l t h2.
  pose proof (hash_index_in_range K N Hcap) as Hi. fold (bucket_of K N) in Hi. fold i in Hi.
  assert (Hlen : length l = Z.to_nat N).
  { subst l. rewrite length_insert, length_replicate. reflexivity. }
  cbn [capacity pp_entries t].
  split; [subst t; cbn [capacity]; lia|].
  split; [subst t; cbn [capacity]; unfold two63, two64 in *; lia|].
  subst h2 t. cbn [capacity pp_entries].
  split; [apply lookup_insert_eq|].
  split; [rewrite lookup_insert_ne by lia; apply lookup_insert_eq|].
  split; [rewrite !lookup_insert_ne by lia; apply lookup_insert_eq|].
  split; [rewrite !lookup_insert_ne by lia; apply lookup_insert_eq|].
  split; [exact Hi|].
  split.
  - subst l. apply list_lookup_insert_eq. rewrite length_replicate. lia.
  - intros j Hj Hne. subst l. rewrite list_lookup_insert_ne by lia.
    apply lookup_replicate_2. lia.
Qed.


(** ** [ht_compare] without a predicate *)

Lemma compare_while_null fuel p w r w' :
  compare_while fuel None p w = Ret r w' -> r = NULL /\ w' = w.
Proof.
  destruct fuel as [|n]; cbn [compare_while]; intros H; [discriminate|].
  destruct (p =? NULL).
  - inversion H. auto.
  - bind_step H e w1 He. apply load_entry_inv in He as [-> _].
    bind_step H m w2 Hm. discriminate.
Qed.

Lemma compare_for_null fuel p_hashtable idx w r w' :
  compare_for fuel p_hashtable None idx w = Ret r w' -> r = NULL /\ w' = w.
Proof.
  revert idx w. induction fuel as [|n IH]; intros idx w H; cbn [compare_for] in H;
    [discriminate|].
  bind_step H t w1 Ht. apply load_table_inv in Ht as [-> _].
  destruct (idx <? capacity t); [|inversion H; auto].
  bind_step H hd0 w1 Hh. apply load_slot_inv in Hh as [-> _].
  bind_step H m w2 Hm.
  assert (m = NULL /\ w2 = w) as [-> ->].
  { destruct (negb (hd0 =? NULL)).
    - unfold with_fuel in Hm. eapply compare_while_null; eauto.
    - inversion Hm; auto. }
  cbn in H. eapply IH; eauto.
Qed.

(** ** [ht_destroy] on a chain of two nodes *)
Lemma bind_undef {A B} (m : M A) (k : A -> M B) w f :
  m w = Undef f -> bind m k w = Undef f.
Proof. intros H. unfold bind. now rewrite H. Qed.

(** A bucket whose chain holds two nodes: [ht_destroy] frees the first
    one inside the [while] loop and reads it again after the loop. *)
Section two_entries.
Variables (p_hashtable : ptr) (t : hashtable_t) (l : list ptr) (w : world).
Variables (i p1 p2 k1 k2 V1 V2 : Z) (s1 : string).
Hypothesis Hlen : Z.of_nat (length l) = capacity t.
Hypothesis Hcap : capacity t < two64.
Hypothesis Ht : heap w !! p_hashtable = Some (Table t).
Hypothesis Ha : heap w !! pp_entries t = Some (Slots l).
Hypothesis Hp1 : heap w !! p1 = Some (Entry (mk_entry p2 k1 V1)).
Hypothesis Hp2 : heap w !! p2 = Some (Entry (mk_entry NULL k2 V2)).
Hypothesis Hk1 : heap w !! k1 = Some (Chars s1).
Hypothesis Hi : 0 <= i < capacity t.
Hypothesis Hli : l !! Z.to_nat i = Some p1.
Hypothesis Hnull : forall j, 0 <= j < i -> l !! Z.to_nat j = Some NULL.
Hypothesis Hnz : p_hashtable <> NULL /\ p1 <> NULL /\ p2 <> NULL /\ k1 <> NULL.

Lemma ht_destroy_two_entries :
  ht_destroy p_hashtable (Some recording_del) w = Undef (Invalid_read p1).
Proof.
  destruct Hnz as (Hz0 & Hz1 & Hz2 & Hz3).
  assert (Et : (p_hashtable =? NULL) = false) by (apply Z.eqb_neq; exact Hz0).
  assert (E1 : (p1 =? NULL) = false) by (apply Z.eqb_neq; exact Hz1).
  assert (E2 : (p2 =? NULL) = false) by (apply Z.eqb_neq; exact Hz2).
  assert (Ek : (k1 =? NULL) = false) by (apply Z.eqb_neq; exact Hz3).
  assert (H12 : p2 <> p1).
  { intros E. rewrite E, Hp1 in Hp2. inversion Hp2. congruence. }
  assert (H1k : p1 <> k1) by (intros E; rewrite E, Hk1 in Hp1; discriminate Hp1).
  assert (H2k : p2 <> k1) by (intros E; rewrite E, Hk1 in Hp2; discriminate Hp2).
  unfold ht_destroy. rewrite Et. cbn [is_null_fn orb].
  rewrite (bind_ret_eq _ _ _ _ _ (load_table_ok _ _ _ Ht)).
  apply bind_undef.
  replace (S (Z.to_nat (capacity t)))
    with (Z.to_nat i + S (Z.to_nat (capacity t - 1 - i) + 1))%nat by lia.
  rewrite (destroy_for_skip p_hashtable t l Hlen Hcap _ w (Z.to_nat i));
    [| split; assumption | lia | lia | intros j Hj; apply Hnull; lia].
  replace (0 + Z.of_nat (Z.to_nat i)) with i by lia.
  rewrite destroy_for_S.
  rewrite (bind_ret_eq _ _ _ _ _ (load_table_ok _ _ _ Ht)).
  destruct (i <? capacity t) eqn:E; [|apply Z.ltb_ge in E; lia].
  erewrite bind_ret_eq; [| eapply load_slot_ok; [exact Ha | lia | exact Hli]].
  rewrite E1. cbn [negb].
  apply bind_undef.
  (* the state in which the [while] loop is left *)
  set (w2 := mk_world (delete p1 (delete k1 (heap w))) (brk w) (oracle w)
                      (trace w ++ [Call_del V1])).
  assert (Hwhile : with_fuel (fun m => destroy_while m (Some recording_del) p1 p1) w
                   = Ret (p1, p2) w2).
  { unfold with_fuel.
    assert (Hsz : exists m, base.size (heap w) = S m).
    { destruct (base.size (heap w)) eqn:Es; [|eauto].
      apply map_size_empty_inv in Es. rewrite Es in Ht.
      rewrite lookup_empty in Ht. discriminate Ht. }
    destruct Hsz as [m ->].
    cbn [destroy_while].
    rewrite (bind_ret_eq _ _ _ _ _ (load_entry_ok _ _ _ Hp1)). cbn [p_next].
    rewrite E2. cbn [negb].
    rewrite (bind_ret_eq _ _ _ _ _ (load_entry_ok _ _ _ Hp1)). cbn [p_data call].
    unfold recording_del. unfold bind at 1. unfold emit at 1.
    erewrite bind_ret_eq; [| apply load_entry_ok; cbn [heap]; exact Hp1].
    cbn [p_key].
    unfold bind at 1. unfold free at 1. rewrite Ek. cbn [heap]. rewrite Hk1.
    unfold bind at 1. unfold free at 1. rewrite E1. cbn [heap set_heap].
    rewrite lookup_delete_ne by congruence. rewrite Hp1.
    unfold set_heap. cbn [heap brk oracle trace]. fold w2.
    erewrite bind_ret_eq.
    2:{ apply load_entry_ok. subst w2. cbn [heap].
        rewrite !lookup_delete_ne by congruence. exact Hp2. }
    cbn [p_next]. change (negb (NULL =? NULL)) with false. cbv iota. reflexivity. }
  rewrite (bind_ret_eq _ _ _ _ _ Hwhile). cbn [fst snd].
  erewrite bind_ret_eq.
  2:{ apply load_entry_ok. subst w2. cbn [heap].
      rewrite !lookup_delete_ne by congruence. exact Hp2. }
  cbn [p_data call]. unfold recording_del. unfold bind at 1. unfold emit at 1.
  apply bind_undef. unfold load_entry. subst w2. cbn [heap].
  rewrite lookup_delete_eq. reflexivity.
Qed.
End two_entries.

(** ** The properties *)

(** X4: the lookup that follows a successful insertion returns the
    inserted value, in every state of the memory. *)
Theorem insert_lookup_round_trip p_hashtable K V w w' :
  ht_insert p_hashtable (Some K) V w = Ret true w' ->
  ht_find_key p_hashtable (Some K) w' = Ret V w'.
Proof. apply ht_insert_then_find. Qed.

(** X5: a key that is absent is inserted when memory is available:
    if the table and its bucket array are live, the capacity is at most
    2^63, [ht_find_key] returns empty for the key, the allocator grants
    its requests and hands out unused addresses, then [ht_insert] of a
    value that is not null returns true, [size] goes up by one (modulo
    2^64) and the key is found with the value. *)
Theorem insert_absent_key_succeeds p_hashtable K V w t l :
  heap w !! p_hashtable = Some (Table t) ->
  heap w !! pp_entries t = Some (Slots l) ->
  Z.of_nat (length l) = capacity t ->
  1 <= capacity t <= two63 ->
  ht_find_key p_hashtable (Some K) w = Ret NULL w ->
  oracle w = [] -> below_brk w ->
  V <> NULL -> Z.of_nat (strlen K) + 1 < two64 ->
  exists w',
    ht_insert p_hashtable (Some K) V w = Ret true w' /\
    table_size (heap w') p_hashtable = Some (to_uint64 (size t + 1)) /\
    ht_find_key p_hashtable (Some K) w' = Ret V w'.
Proof.
  intros Ht Ha Hlen Hcap Hf Ho Hb HV HK.
  destruct (ht_insert_absent_key _ K V w t l Ht Ha Hlen Hcap Hf Ho
              (Hb _ _ Ht) (Hb _ _ Ha) HV HK) as (w' & Hi & Hs).
  exists w'. split; [exact Hi|]. split.
  - unfold table_size. rewrite Hs. reflexivity.
  - exact (ht_insert_then_find _ _ _ _ _ Hi).
Qed.

(** X6: an insertion that returns false, for whatever reason
    (invalid argument, duplicate key, either allocation failing), leaves
    the memory exactly as it was; the node allocated before a failing
    key allocation is freed again. *)
Theorem failed_insert_keeps_memory p_hashtable p_key V w w' :
  ht_insert p_hashtable p_key V w = Ret false w' ->
  0 < brk w -> heap w !! brk w = None ->
  heap w' = heap w.
Proof. apply ht_insert_false_keeps_heap. Qed.

(** X7: a successful insertion of K does not change what
    [ht_find_key] returns for any key that differs from K as a C
    string, in K's bucket or in another. *)
Theorem insert_keeps_other_lookups p_hashtable K V w w' K' r w0 :
  ht_insert p_hashtable (Some K) V w = Ret true w' ->
  heap w !! brk w = None -> heap w !! (brk w + 1) = None ->
  cstr K' <> cstr K ->
  ht_find_key p_hashtable (Some K') w = Ret r w0 ->
  ht_find_key p_hashtable (Some K') w' = Ret r w'.
Proof. apply ht_insert_keeps_lookup. Qed.

(** X8: when a caller inserts a list of pairs one after the other
    and every insertion succeeds, every pair of the list is found with
    its value afterwards, and so is every key that was found before. *)
Theorem inserted_keys_stay_retrievable p_hashtable kvs w w' :
  below_brk w ->
  insert_all p_hashtable kvs w = Ret true w' ->
  (forall k v, (k, v) ∈ kvs -> ht_find_key p_hashtable (Some k) w' = Ret v w') /\
  (forall K' r w0, ht_find_key p_hashtable (Some K') w = Ret r w0 -> r <> NULL ->
                   ht_find_key p_hashtable (Some K') w' = Ret r w').
Proof.
  intros Hb H. destruct (insert_all_found _ _ _ _ Hb H) as (_ & H1 & H2). auto.
Qed.

(** X9: a deletion that returns false (null argument, hash failure
    or key not found) changes neither the memory nor the allocator, and
    did not get to the destructor: with any other destructor, the null
    pointer included, the call ends in the same state. *)
Theorem failed_delete_changes_nothing p_hashtable p_key d w w' :
  ht_delete p_hashtable p_key d w = Ret false w' ->
  heap w' = heap w /\ brk w' = brk w /\ oracle w' = oracle w /\
  forall d', ht_delete p_hashtable p_key d' w = Ret false w'.
Proof. apply ht_delete_false. Qed.

(** X10: deleting a key right after it was inserted succeeds, calls
    the destructor once, on the inserted value, and takes the node out
    of its bucket again: every lookup returns what it returned before
    the insertion, the key itself is not found.  The memory is the one
    before the insertion except for [size], which stays one higher,
    and the bytes of the key, which stay allocated. *)
Theorem insert_then_delete_restores_lookups p_hashtable K V w w1 :
  ht_insert p_hashtable (Some K) V w = Ret true w1 ->
  heap w !! brk w = None -> heap w !! (brk w + 1) = None ->
  exists t w2,
    heap w !! p_hashtable = Some (Table t) /\
    ht_delete p_hashtable (Some K) (Some recording_del) w1 = Ret true w2 /\
    trace w2 = trace w ++ [Call_del V] /\
    heap w2 = <[p_hashtable := Table (set_size (to_uint64 (size t + 1)) t)]>
                (<[brk w + 1 := Chars (cstr K)]> (heap w)) /\
    ht_find_key p_hashtable (Some K) w2 = Ret NULL w2 /\
    (forall K' r w0, ht_find_key p_hashtable (Some K') w = Ret r w0 ->
                     ht_find_key p_hashtable (Some K') w2 = Ret r w2).
Proof.
  intros H Hfp Hfk.
  destruct (ht_insert_then_delete _ _ _ _ _ H Hfp Hfk) as (t & Ht & Hd).
  destruct (ht_insert_true_inv _ _ _ _ _ H)
    as (t0 & l & hd & Et & EV & Ht0 & Ha & Hc & Ei & Hir & Hhd & Hf & Hp0 & Hk0
        & Hpt & Hkt & Hpa & Hka & Hat & _).
  cbn zeta in *. rewrite Ht in Ht0. injection Ht0 as <-.
  eexists t, _. split; [exact Ht|]. split; [exact Hd|].
  split; [reflexivity|]. split; [reflexivity|].
  assert (Hall : forall K' r w0,
             ht_find_key p_hashtable (Some K') w = Ret r w0 ->
             ht_find_key p_hashtable (Some K') 
               (mk_world (<[p_hashtable := Table (set_size (to_uint64 (size t + 1)) t)]>
                           (<[brk w + 1 := Chars (cstr K)]> (heap w)))
                         (brk w1) (oracle w1) (trace w ++ [Call_del V]))
             = Ret r (mk_world (<[p_hashtable := Table (set_size (to_uint64 (size t + 1)) t)]>
                           (<[brk w + 1 := Chars (cstr K)]> (heap w)))
                         (brk w1) (oracle w1) (trace w ++ [Call_del V]))).
  { intros K' r w0 Hfind.
    apply (ht_find_key_transfer _ K' w _ t (set_size (to_uint64 (size t + 1)) t) r w0 Et Ht Hc);
      cbn [heap].
    - apply lookup_insert_eq.
    - reflexivity.
    - reflexivity.
    - rewrite !lookup_insert_ne by congruence. reflexivity.
    - split; intros q x Hq;
        rewrite !lookup_insert_ne by (intros <-; congruence); exact Hq.
    - rewrite map_size_insert_Some.
      2:{ rewrite lookup_insert_ne by congruence. eauto. }
      rewrite map_size_insert_None by exact Hfk. lia.
    - exact Hfind. }
  split; [apply (Hall K NULL w Hf) | exact Hall].
Qed.

(** X1: with a capacity N >= 1 whose bucket array fits [size_t] and
    both allocations granted, [ht_create] returns a handle that is not
    null to a table of capacity N and size 0 whose bucket array has N
    slots, all null. *)
Theorem ht_create_success (N : Z) (w : world) :
  1 <= N -> N * sizeof_entry_t < two64 -> oracle w = [] -> brk w <> NULL ->
  ht_create N w
    = Ret (brk w)
        (mk_world
           (<[brk w := Table (mk_hashtable (brk w + 1) 0 N)]>
              (<[brk w + 1 := Slots (replicate (Z.to_nat N) NULL)]>
                 (<[brk w := Table (mk_hashtable NULL 0 0)]> (heap w))))
           (brk w + 2) [] (trace w)).
Proof. apply ht_create_ok. Qed.

(** X3: in a table just created every lookup returns empty and every
    deletion returns false, whatever the key and the destructor, and
    neither changes the state. *)
Theorem fresh_table_is_empty (N : Z) (w : world) :
  1 <= N -> N * sizeof_entry_t < two64 -> oracle w = [] -> 0 < brk w ->
  exists t w1,
    ht_create N w = Ret t w1 /\ t <> NULL /\
    forall K,
      ht_find_key t (Some K) w1 = Ret NULL w1 /\
      forall d, ht_delete t (Some K) d w1 = Ret false w1.
Proof.
  intros HN Hsz Ho Hb.
  pose proof (capacity_fits N HN Hsz) as Hcap.
  assert (Hb' : brk w <> NULL) by (unfold NULL; lia).
  eexists _, _. split; [apply (ht_create_ok N w HN Hsz Ho Hb')|].
  set (w1 := mk_world _ _ _ _).
  split; [exact Hb'|].
  assert (Ht : heap w1 !! brk w = Some (Table (mk_hashtable (brk w + 1) 0 N))).
  { subst w1. look. reflexivity. }
  assert (Ha : heap w1 !! (brk w + 1) = Some (Slots (replicate (Z.to_nat N) NULL))).
  { subst w1. look. reflexivity. }
  assert (Hlen : Z.of_nat (length (replicate (Z.to_nat N) NULL)) = N).
  { rewrite length_replicate. lia. }
  intros K.
  pose proof (hash_index_in_range K N Hcap) as Hi.
  assert (Hl : replicate (Z.to_nat N) NULL !! Z.to_nat (bucket_of K N) = Some NULL).
  { apply lookup_replicate_2. unfold bucket_of. lia. }
  split.
  - eapply ht_find_key_null_bucket;
      [exact Ht | exact Ha | exact Hlen | exact Hcap | exact Hb' | exact Hl].
  - intros d. eapply ht_delete_null_bucket;
      [exact Ht | exact Ha | exact Hlen | exact Hcap | exact Hb' | exact Hl].
Qed.

(** X11: destroying a table right after it was created frees the
    table and its bucket array, so that the memory is again what it was
    before the creation, and never calls the destructor. *)
Theorem create_destroy_round_trip (N : Z) (d : ptr -> M unit) (w : world) :
  1 <= N -> N * sizeof_entry_t < two64 -> oracle w = [] -> 0 < brk w ->
  heap w !! brk w = None -> heap w !! (brk w + 1) = None ->
  exists t w1,
    ht_create N w = Ret t w1 /\
    ht_destroy t (Some d) w1
      = Ret tt (mk_world (heap w) (brk w + 2) [] (trace w)).
Proof. apply ht_create_then_destroy. Qed.

(** X14: a call of [ht_print] that returns leaves the memory and the
    allocator as they were. *)
Theorem ht_print_frame p_hashtable w out w' :
  ht_print p_hashtable w = Ret out w' ->
  heap w' = heap w /\ brk w' = brk w /\ oracle w' = oracle w.
Proof.
  intros H. eapply observer_heap; [apply observer_ht_print | exact H].
Qed.

(** X15: for a table just created [ht_print] prints the opening and
    the closing line only; after one insertion it prints between them
    the index of the key's bucket and the bytes of the key. *)
Theorem ht_print_lists_the_key (N : Z) (K : string) (V : ptr) (w : world) :
  1 <= N -> N * sizeof_entry_t < two64 -> oracle w = [] -> 0 < brk w ->
  V <> NULL -> Z.of_nat (strlen K) + 1 < two64 ->
  exists t w1 w2,
    ht_create N w = Ret t w1 /\
    ht_print t w1 = Ret [Puts "Beginning of table."; Puts "End of table."] w1 /\
    ht_insert t (Some K) V w1 = Ret true w2 /\
    ht_print t w2
      = Ret [Puts "Beginning of table."; Printf_index (bucket_of K N);
             Printf_key (cstr K); Puts "End of table."] w2.
Proof.
  intros HN Hsz Ho Hb HV HK.
  pose proof (capacity_fits N HN Hsz) as Hcap.
  assert (Hb' : brk w <> NULL) by (unfold NULL; lia).
  destruct (ht_create_insert_world N K V w HN Hsz Ho Hb HV HK) as (w1 & Hc & Hi).
  cbn zeta in *.
  eexists _, w1, _. split; [exact Hc|]. split; [|split; [exact Hi|]].
  - rewrite (ht_create_ok N w HN Hsz Ho Hb') in Hc. injection Hc as <-.
    set (w1 := mk_world _ _ _ _).
    assert (Ht : heap w1 !! brk w = Some (Table (mk_hashtable (brk w + 1) 0 N))).
    { subst w1. look. reflexivity. }
    assert (Ha : heap w1 !! (brk w + 1) = Some (Slots (replicate (Z.to_nat N) NULL))).
    { subst w1. look. reflexivity. }
    unfold ht_print.
    assert (Et : (brk w =? NULL) = false) by (apply Z.eqb_neq; exact Hb').
    rewrite Et.
    rewrite (bind_ret_eq _ _ _ _ _ (load_table_ok _ _ _ Ht)). cbn [capacity].
    assert (Hbody : print_for (S (Z.to_nat N)) (brk w) 0 w1 = Ret [] w1).
    { apply (print_for_empty _ _ _ _ Ht Ha).
      + rewrite length_replicate. cbn [capacity]. lia.
      + cbn [capacity]. unfold two63, two64 in *. lia.
      + intros j Hj. rewrite length_replicate in Hj. apply lookup_replicate_2. exact Hj.
      + cbn [capacity]. lia.
      + cbn [capacity]. lia. }
    rewrite (bind_ret_eq _ _ _ _ _ Hbody). reflexivity.
  - destruct (one_entry_table_facts N K V (heap w) (brk w) Hcap Hb)
      as (F1 & F2 & F3 & F4 & F5 & F6 & F7 & F8 & F9).
    match goal with |- ht_print _ ?w2 = _ =>
      apply (ht_print_one_entry (brk w) _ _ (bucket_of K N) (brk w + 2) (brk w + 3) V
               (cstr K) w2 F1 F2 F3 F4 F5 F6 F7 F8 F9)
    end.
    all: unfold NULL; lia.
Qed.

(** X12: creating a table, inserting one pair and destroying the
    table calls the destructor once, on the inserted value, and frees
    the node, its key, the bucket array and the table: the memory is
    again what it was before the creation. *)
Theorem create_insert_destroy_round_trip (N : Z) (K : string) (V : ptr) (w : world) :
  1 <= N -> N * sizeof_entry_t < two64 -> oracle w = [] -> below_brk w -> 0 < brk w ->
  V <> NULL -> Z.of_nat (strlen K) + 1 < two64 ->
  exists t w1 w2,
    ht_create N w = Ret t w1 /\
    ht_insert t (Some K) V w1 = Ret true w2 /\
    ht_destroy t (Some recording_del) w2
      = Ret tt (mk_world (heap w) (brk w + 4) [] (trace w ++ [Call_del V])).
Proof.
  intros HN Hsz Ho Hbelow Hb HV HK.
  pose proof (capacity_fits N HN Hsz) as Hcap.
  destruct (ht_create_insert_world N K V w HN Hsz Ho Hb HV HK) as (w1 & Hc & Hi).
  cbn zeta in *.
  eexists _, w1, _. split; [exact Hc|]. split; [exact Hi|].
  destruct (one_entry_table_facts N K V (heap w) (brk w) Hcap Hb)
    as (F1 & F2 & F3 & F4 & F5 & F6 & F7 & F8 & F9).
  match goal with |- ht_destroy _ _ ?w2 = _ =>
    rewrite (ht_destroy_one_entry (brk w) _ _ (bucket_of K N) (brk w + 2) (brk w + 3) V
               (cstr K) w2 F1 F2 F3 F4 F5 F6 F7 F8 F9);
      [| unfold NULL; lia | lia | cbn [pp_entries]; unfold NULL; lia]
  end.
  cbn [heap brk oracle trace pp_entries]. f_equal. f_equal.
  apply map_eq. intros q. rewrite !lookup_delete, !lookup_insert.
  repeat case_decide; subst; try reflexivity; try lia.
  all: symmetry; destruct (heap w !! _) as [x|] eqn:E; [|reflexivity];
    pose proof (Hbelow _ _ E); lia.
Qed.

(** X16: [ht_compare] never reports a match.  Whenever it returns, it
    returns the null pointer, and the state is the one of the call, with
    at most the invalid-argument message added: a predicate that is
    present is rejected, and without one a scan only returns when it
    meets no entry. *)
Theorem ht_compare_never_matches p_hashtable (f : p_comp) w r w' :
  ht_compare p_hashtable f w = Ret r w' ->
  r = NULL /\
  (w' = w \/
   w' = add_trace [Fprintf_stderr "Invalid argument passed to ht_match."] w).
Proof.
  unfold ht_compare. intros H.
  destruct ((p_hashtable =? NULL) || negb (is_null_fn f)) eqn:E.
  - inversion H. split; [reflexivity|]. right. reflexivity.
  - apply orb_false_elim in E as [_ E]. destruct f; [discriminate|].
    bind_step H t w1 Ht. apply load_table_inv in Ht as [-> _].
    apply compare_for_null in H as [-> ->]. auto.
Qed.

(** X17: [ht_destroy] reads a node it has freed as soon as two keys
    share a bucket.  After a table was created and two distinct keys
    with the same bucket index were inserted, destroying the table
    frees the node inserted last inside the [while] loop and reads its
    [p_key] again after the loop: the call has no defined result. *)
Theorem destroy_after_collision_reads_freed_node
  (N : Z) (K1 K2 : string) (V1 V2 : ptr) (w : world) :
  1 <= N -> N * sizeof_entry_t < two64 -> oracle w = [] -> below_brk w -> 0 < brk w ->
  V1 <> NULL -> V2 <> NULL ->
  Z.of_nat (strlen K1) + 1 < two64 -> Z.of_nat (strlen K2) + 1 < two64 ->
  cstr K2 <> cstr K1 -> bucket_of K2 N = bucket_of K1 N ->
  exists t w1 w2 w3,
    ht_create N w = Ret t w1 /\
    ht_insert t (Some K1) V1 w1 = Ret true w2 /\
    ht_insert t (Some K2) V2 w2 = Ret true w3 /\
    heap w3 !! (brk w + 4) = Some (Entry (mk_entry (brk w + 2) (brk w + 5) V2)) /\
    ht_destroy t (Some recording_del) w3 = Undef (Invalid_read (brk w + 4)).
Proof.
  intros HN Hsz Ho Hbelow Hb HV1 HV2 HK1 HK2 Hne Hsame.
  pose proof (capacity_fits N HN Hsz) as Hcap.
  assert (Hb' : brk w <> NULL) by (unfold NULL; lia).
  assert (Hfresh : forall q, brk w <= q -> heap w !! q = None).
  { intros q Hq. destruct (heap w !! q) as [x|] eqn:E; [|reflexivity].
    pose proof (Hbelow _ _ E). lia. }
  destruct (ht_create_insert_world N K1 V1 w HN Hsz Ho Hb HV1 HK1) as (w1 & Hc & Hi1).
  cbn zeta in *.
  pose proof (ht_create_ok N w HN Hsz Ho Hb') as Hc'.
  rewrite Hc' in Hc. injection Hc as <-.
  set (b := brk w) in *.
  set (w1 := mk_world _ (b + 2) _ _) in *.
  set (w2 := mk_world _ (b + 4) _ _) in *.
  destruct (one_entry_table_facts N K1 V1 (heap w) b Hcap Hb)
    as (F1 & F2 & F3 & F4 & F5 & F6 & F7 & F8 & F9).
  cbn zeta in *. cbn [capacity pp_entries] in *.
  set (i := bucket_of K1 N) in *.
  set (l1 := <[Z.to_nat i := b + 2]> (replicate (Z.to_nat N) NULL)) in *.
  (* the second key is absent after the first insertion *)
  assert (Hf1 : ht_find_key b (Some K2) w1 = Ret NULL w1).
  { eapply (ht_find_key_null_bucket b K2 w1 (mk_hashtable (b + 1) 0 N)
              (replicate (Z.to_nat N) NULL)).
    - subst w1. look. reflexivity.
    - subst w1. cbn [pp_entries]. look. reflexivity.
    - rewrite length_replicate. cbn [capacity]. lia.
    - exact Hcap.
    - exact Hb'.
    - apply lookup_replicate_2. cbn [capacity].
      pose proof (hash_index_in_range K2 N Hcap). lia. }
  assert (Hf2 : ht_find_key b (Some K2) w2 = Ret NULL w2).
  { eapply (ht_insert_keeps_lookup b K1 V1 w1 w2 K2 NULL w1 Hi1); [| | exact Hne | exact Hf1].
    - subst w1. cbn [heap brk]. rewrite !lookup_insert_ne by lia. apply Hfresh. lia.
    - subst w1. cbn [heap brk]. rewrite !lookup_insert_ne by lia. apply Hfresh. lia. }
  destruct (ht_insert_absent_key b K2 V2 w2 (mk_hashtable (b + 1) 1 N) l1
              F3 F4 F1 Hcap Hf2) as (w3 & Hi2 & _);
    try (subst w2; cbn [brk oracle pp_entries]; first [reflexivity | lia | assumption]).
  exists b, w1, w2, w3. split; [exact Hc'|]. split; [exact Hi1|]. split; [exact Hi2|].
  destruct (ht_insert_true_inv _ _ _ _ _ Hi2)
    as (t0 & l0 & hd0 & _ & _ & Ht0 & Ha0 & _ & _ & Hir & Hhd & _ & _ & _
        & _ & _ & _ & _ & _ & ->).
  cbn zeta in *.
  change (heap w2 !! b = Some (Table (mk_hashtable (b + 1) 1 N))) in F3.
  change (heap w2 !! (b + 1) = Some (Slots l1)) in F4.
  rewrite F3 in Ht0. injection Ht0 as <-.
  cbn [pp_entries capacity size] in *.
  rewrite F4 in Ha0. injection Ha0 as <-.
  rewrite Hsame in *. fold i in Hhd |- *. rewrite F8 in Hhd. injection Hhd as <-.
  replace (brk w2) with (b + 4) by reflexivity.
  replace (b + 4 + 1) with (b + 5) by lia.
  split; [cbn [heap]; rewrite !lookup_insert_ne by lia; apply lookup_insert_eq|].
  match goal with |- ht_destroy _ _ ?w3 = _ =>
    apply (ht_destroy_two_entries b (set_size (to_uint64 (1 + 1)) (mk_hashtable (b + 1) 1 N))
             (<[Z.to_nat i := b + 4]> l1) w3 i (b + 4) (b + 2) (b + 5) (b + 3) V2 V1
             (cstr K2))
  end.
  - cbn [capacity set_size]. rewrite length_insert. exact F1.
  - cbn [capacity set_size]. exact F2.
  - cbn [heap]. apply lookup_insert_eq.
  - cbn [heap pp_entries set_size]. rewrite lookup_insert_ne by lia. apply lookup_insert_eq.
  - cbn [heap]. rewrite !lookup_insert_ne by lia. apply lookup_insert_eq.
  - cbn [heap]. rewrite !lookup_insert_ne by lia. exact F5.
  - cbn [heap]. rewrite !lookup_insert_ne by lia. apply lookup_insert_eq.
  - cbn [capacity set_size]. exact F7.
  - apply list_lookup_insert_eq. lia.
  - intros j Hj. rewrite list_lookup_insert_ne by lia. apply F9; lia.
  - unfold NULL. lia.
Qed.

(** ** The further properties at concrete inputs *)

Lemma below_brk_w_empty : below_brk w_empty.
Proof.
  unfold below_brk. apply map_Forall_to_list. vm_compute. constructor.
Defined.

Lemma below_brk_w_table : below_brk w_table.
Proof.
  unfold below_brk. apply map_Forall_to_list. vm_compute. repeat constructor.
Defined.

Lemma below_brk_w_fruit : below_brk w_fruit.
Proof.
  unfold below_brk. apply map_Forall_to_list. vm_compute. repeat constructor.
Defined.

Lemma ht_create_success_witness :
  ht_create 7 w_empty
  = Ret 1 (mk_world
             (<[1 := Table (mk_hashtable 2 0 7)]>
                (<[2 := Slots (replicate 7%nat NULL)]>
                   (<[1 := Table (mk_hashtable NULL 0 0)]> ∅)))
             3 [] []).
Proof.
  apply (ht_create_success 7 w_empty).
  - lia.
  - reflexivity.
  - reflexivity.
  - discriminate.
Defined.

Lemma ht_create_fails_cleanly_witness :
  (exists w', ht_create 0 w_empty = Ret NULL w' /\
              heap w' = heap w_empty /\ brk w' = brk w_empty) /\
  (exists w', ht_create 7 (mk_world ∅ 1 [false] []) = Ret NULL w' /\
              heap w' = heap (mk_world ∅ 1 [false] []) /\
              brk w' = brk (mk_world ∅ 1 [false] [])).
Proof.
  split.
  - apply (ht_create_fails_cleanly 0 w_empty []). left. reflexivity.
  - apply (ht_create_fails_cleanly 7 (mk_world ∅ 1 [false] []) []). right. reflexivity.
Defined.

Lemma fresh_table_is_empty_witness :
  exists t w1,
    ht_create 7 w_empty = Ret t w1 /\ t <> NULL /\
    forall K,
      ht_find_key t (Some K) w1 = Ret NULL w1 /\
      forall d, ht_delete t (Some K) d w1 = Ret false w1.
Proof.
  apply (fresh_table_is_empty 7 w_empty).
  - lia.
  - reflexivity.
  - reflexivity.
  - reflexivity.
Defined.

Lemma insert_lookup_round_trip_witness :
  ht_insert 1 (Some "cherry") 300 w_fruit = Ret true w_cherry /\
  ht_find_key 1 (Some "cherry") w_cherry = Ret 300 w_cherry.
Proof.
  split; [vm_compute; reflexivity|].
  apply (insert_lookup_round_trip 1 "cherry" 300 w_fruit w_cherry).
  vm_compute; reflexivity.
Defined.

Lemma insert_absent_key_succeeds_witness :
  exists w',
    ht_insert 1 (Some "cherry") 300 w_fruit = Ret true w' /\
    table_size (heap w') 1 = Some (to_uint64 (2 + 1)) /\
    ht_find_key 1 (Some "cherry") w' = Ret 300 w'.
Proof.
  apply (insert_absent_key_succeeds 1 "cherry" 300 w_fruit
           (mk_hashtable 2 2 7) [3; 0; 0; 5; 0; 0; 0]).
  - vm_compute; reflexivity.
  - vm_compute; reflexivity.
  - reflexivity.
  - unfold two63. simpl. lia.
  - vm_compute; reflexivity.
  - vm_compute; reflexivity.
  - exact below_brk_w_fruit.
  - discriminate.
  - reflexivity.
Defined.

Lemma failed_insert_keeps_memory_witness :
  ht_insert 1 (Some "apple") 100 w_key_alloc_fails
  = Ret false (mk_world (heap w_key_alloc_fails) 4 []
                 [Perror "calloc for entry key in insert"]) /\
  heap (mk_world (heap w_key_alloc_fails) 4 []
          [Perror "calloc for entry key in insert"])
  = heap w_key_alloc_fails.
Proof.
  split; [vm_compute; reflexivity|].
  apply (failed_insert_keeps_memory 1 (Some "apple") 100 w_key_alloc_fails).
  - vm_compute; reflexivity.
  - reflexivity.
  - vm_compute; reflexivity.
Defined.

Lemma insert_keeps_other_lookups_witness :
  ht_find_key 1 (Some "apple") w_fruit = Ret 100 w_fruit /\
  ht_find_key 1 (Some "apple") w_cherry = Ret 100 w_cherry.
Proof.
  split; [vm_compute; reflexivity|].
  apply (insert_keeps_other_lookups 1 "cherry" 300 w_fruit w_cherry "apple" 100 w_fruit).
  - vm_compute; reflexivity.
  - vm_compute; reflexivity.
  - vm_compute; reflexivity.
  - discriminate.
  - vm_compute; reflexivity.
Defined.

Lemma inserted_keys_stay_retrievable_witness :
  (forall k v, (k, v) ∈ fruit_pairs ->
     ht_find_key 1 (Some k) (state_after (insert_all 1 fruit_pairs) w_table)
     = Ret v (state_after (insert_all 1 fruit_pairs) w_table)) /\
  (forall K' r w0, ht_find_key 1 (Some K') w_table = Ret r w0 -> r <> NULL ->
     ht_find_key 1 (Some K') (state_after (insert_all 1 fruit_pairs) w_table)
     = Ret r (state_after (insert_all 1 fruit_pairs) w_table)).
Proof.
  apply (inserted_keys_stay_retrievable 1 fruit_pairs w_table
           (state_after (insert_all 1 fruit_pairs) w_table)).
  - exact below_brk_w_table.
  - vm_compute; reflexivity.
Defined.

Lemma failed_delete_changes_nothing_witness :
  ht_delete 1 (Some "cherry") (Some recording_del) w_fruit = Ret false w_fruit /\
  heap w_fruit = heap w_fruit /\ brk w_fruit = brk w_fruit /\
  oracle w_fruit = oracle w_fruit /\
  forall d', ht_delete 1 (Some "cherry") d' w_fruit = Ret false w_fruit.
Proof.
  split; [vm_compute; reflexivity|].
  apply (failed_delete_changes_nothing 1 (Some "cherry") (Some recording_del)
           w_fruit w_fruit).
  vm_compute; reflexivity.
Defined.

Lemma insert_then_delete_restores_lookups_witness :
  exists t w2,
    heap w_fruit !! 1 = Some (Table t) /\
    ht_delete 1 (Some "cherry") (Some recording_del) w_cherry = Ret true w2 /\
    trace w2 = trace w_fruit ++ [Call_del 300] /\
    heap w2 = <[1 := Table (set_size (to_uint64 (size t + 1)) t)]>
                (<[brk w_fruit + 1 := Chars (cstr "cherry")]> (heap w_fruit)) /\
    ht_find_key 1 (Some "cherry") w2 = Ret NULL w2 /\
    (forall K' r w0, ht_find_key 1 (Some K') w_fruit = Ret r w0 ->
                     ht_find_key 1 (Some K') w2 = Ret r w2).
Proof.
  apply (insert_then_delete_restores_lookups 1 "cherry" 300 w_fruit w_cherry).
  - vm_compute; reflexivity.
  - vm_compute; reflexivity.
  - vm_compute; reflexivity.
Defined.

Lemma create_destroy_round_trip_witness :
  exists t w1,
    ht_create 7 w_empty = Ret t w1 /\
    ht_destroy t (Some recording_del) w1
      = Ret tt (mk_world (heap w_empty) (brk w_empty + 2) [] (trace w_empty)).
Proof.
  apply (create_destroy_round_trip 7 recording_del w_empty).
  - lia.
  - reflexivity.
  - reflexivity.
  - reflexivity.
  - reflexivity.
  - reflexivity.
Defined.

Lemma create_insert_destroy_round_trip_witness :
  exists t w1 w2,
    ht_create 7 w_empty = Ret t w1 /\
    ht_insert t (Some "apple") 100 w1 = Ret true w2 /\
    ht_destroy t (Some recording_del) w2
      = Ret tt (mk_world (heap w_empty) (brk w_empty + 4) []
                  (trace w_empty ++ [Call_del 100])).
Proof.
  apply (create_insert_destroy_round_trip 7 "apple" 100 w_empty).
  - lia.
  - reflexivity.
  - reflexivity.
  - exact below_brk_w_empty.
  - reflexivity.
  - discriminate.
  - reflexivity.
Defined.

Lemma ht_print_frame_witness :
  ht_print 1 w_fruit
  = Ret [Puts "Beginning of table."; Printf_index 0; Printf_key "apple";
         Printf_index 3; Printf_key "banana"; Puts "End of table."] w_fruit /\
  heap w_fruit = heap w_fruit /\ brk w_fruit = brk w_fruit /\
  oracle w_fruit = oracle w_fruit.
Proof.
  split; [vm_compute; reflexivity|].
  apply (ht_print_frame 1 w_fruit
           [Puts "Beginning of table."; Printf_index 0; Printf_key "apple";
            Printf_index 3; Printf_key "banana"; Puts "End of table."] w_fruit).
  vm_compute; reflexivity.
Defined.

Lemma ht_print_lists_the_key_witness :
  exists t w1 w2,
    ht_create 7 w_empty = Ret t w1 /\
    ht_print t w1 = Ret [Puts "Beginning of table."; Puts "End of table."] w1 /\
    ht_insert t (Some "banana") 200 w1 = Ret true w2 /\
    ht_print t w2
      = Ret [Puts "Beginning of table."; Printf_index (bucket_of "banana" 7);
             Printf_key (cstr "banana"); Puts "End of table."] w2.
Proof.
  apply (ht_print_lists_the_key 7 "banana" 200 w_empty).
  - lia.
  - reflexivity.
  - reflexivity.
  - reflexivity.
  - discriminate.
  - reflexivity.
Defined.

Lemma ht_compare_never_matches_witness :
  ht_compare 1 None w_table = Ret NULL w_table /\
  NULL = NULL /\
  (w_table = w_table \/
   w_table = add_trace [Fprintf_stderr "Invalid argument passed to ht_match."] w_table).
Proof.
  split; [vm_compute; reflexivity|].
  apply (ht_compare_never_matches 1 None w_table NULL w_table).
  vm_compute; reflexivity.
Defined.

Lemma destroy_after_collision_reads_freed_node_witness :
  exists t w1 w2 w3,
    ht_create 1 w_empty = Ret t w1 /\
    ht_insert t (Some "apple") 100 w1 = Ret true w2 /\
    ht_insert t (Some "banana") 200 w2 = Ret true w3 /\
    heap w3 !! (brk w_empty + 4)
      = Some (Entry (mk_entry (brk w_empty + 2) (brk w_empty + 5) 200)) /\
    ht_destroy t (Some recording_del) w3 = Undef (Invalid_read (brk w_empty + 4)).
Proof.
  apply (destroy_after_collision_reads_freed_node 1 "apple" "banana" 100 200 w_empty).
  - lia.
  - reflexivity.
  - reflexivity.
  - exact below_brk_w_empty.
  - reflexivity.
  - discriminate.
  - discriminate.
  - reflexivity.
  - reflexivity.
  - discriminate.
  - reflexivity.
Defined.
